(** * The logger registry of package [core] (core/core.go)

    A shallow embedding of [Core]: the appender registry ([putAppender],
    [getAppender]), the logger factory ([newLogger], [newNamedLogger]), the
    start-up sequence ([New]) and the run-time lookup ([GetLogger]).

    Go maps are [gmap]s, Go pointers that may be nil are [option]s, and
    every heap object whose identity matters (atomic levels, logger handles)
    carries the address at which it was allocated.  The collaborators of the
    package (configuration decoder, appender factory, level parser, the
    order in which the runtime walks a map) are the fields of the class
    [Externals]. *)

From Stdlib Require Import Ascii.
From stdpp Require Import gmap strings list fin_maps relations.

Set Default Proof Using "Type".

(** ** Errors and outcomes *)

(** The errors [New] can return.  The source builds them from messages; each
    constructor stands for one message:
    - [ErrExternal]: an error of a collaborator ([Unpack], [CreateAppender],
      [Name]), returned as it is;
    - [ErrInvalidLevel]: the error of [UnmarshalText] in [createLevel];
    - [ErrEmptyName]: "name should not be empty";
    - [ErrNilAppender]: "appender should not be nil";
    - [ErrDuplicateName]: "duplicated appender name %q";
    - [ErrNotFound]: "not found appender %q";
    - [ErrNoAppenders]: "empty appenders";
    - [ErrDuplicateLogger]: "duplicated logger %q". *)
Inductive error : Type :=
  | ErrExternal (msg : string)
  | ErrInvalidLevel (text : string)
  | ErrEmptyName
  | ErrNilAppender
  | ErrDuplicateName (name : string)
  | ErrNotFound (name : string)
  | ErrNoAppenders
  | ErrDuplicateLogger (name : string).

#[global] Instance error_eq_dec : EqDecision error.
Proof. solve_decision. Defined.

(** What a call can do: return a value, return an error, or panic (the only
    panic these functions can raise is the dereference of a nil appender). *)
Inductive outcome (A : Type) : Type :=
  | Ret (a : A)
  | Fail (e : error)
  | Crash.
Arguments Ret {A} a.
Arguments Fail {A} e.
Arguments Crash {A}.

Definition is_Ret {A} (o : outcome A) : Prop :=
  match o with Ret _ => True | _ => False end.

#[global] Instance outcome_ret : MRet outcome := @Ret.
#[global] Instance outcome_bind : MBind outcome := λ A B f o,
  match o with
  | Ret a => f a
  | Fail e => Fail e
  | Crash => Crash
  end.

(** ** The objects of the logging backend *)

(** A pointer that may be nil. *)
Abbreviation ptr A := (option A).

(** [zapcore.Level]. *)
Inductive zapLevel : Type :=
  | DebugLevel | InfoLevel | WarnLevel | ErrorLevel
  | DPanicLevel | PanicLevel | FatalLevel.

#[global] Instance zapLevel_eq_dec : EqDecision zapLevel.
Proof. solve_decision. Defined.

(** [zap.AtomicLevel]: a pointer to a cell that holds a severity.
    [level_addr] is the address of the cell, [level_value] the severity it
    was created at. *)
Record AtomicLevel : Type := mkAtomicLevel {
  level_addr : nat;
  level_value : zapLevel;
}.

#[global] Instance AtomicLevel_eq_dec : EqDecision AtomicLevel.
Proof. solve_decision. Defined.

(** Encoders and write syncers are opaque handles. *)
Definition encoder : Type := nat.
Definition writer : Type := nat.

(** [appender.Appender]: an encoder and a writer. *)
Record Appender : Type := mkAppender {
  Encoder : encoder;
  Writer : writer;
}.

#[global] Instance Appender_eq_dec : EqDecision Appender.
Proof. solve_decision. Defined.

(** [zapcore.Core], as far as [NewCore], [NewNopCore] and [NewTee] build it.
    The level enabler of an [IOCore] is an interface value: [None] is nil. *)
#[warnings="-register-all"]
Inductive zcore : Type :=
  | NopCore
  | IOCore (enc : encoder) (ws : writer) (enab : ptr AtomicLevel)
  | MultiCore (cores : list zcore).

Definition NewCore (enc : encoder) (ws : writer) (enab : ptr AtomicLevel)
  : zcore := IOCore enc ws enab.

(** [zapcore.NewTee]: no core gives the no-op core, one core gives that
    core, several give a multi-core. *)
Definition NewTee (cores : list zcore) : zcore :=
  match cores with
  | [] => NopCore
  | [c] => c
  | _ => MultiCore cores
  end.

(** The cores a tee fans out to. *)
Definition fanout (zc : zcore) : list zcore :=
  match zc with
  | NopCore => []
  | IOCore _ _ _ => [zc]
  | MultiCore cores => cores
  end.

(** A zap logger, plain or sugared: its name and its core. *)
Record SugaredLogger : Type := mkSugared {
  sugar_name : string;
  sugar_core : zcore;
}.

(** [zap.New]: a logger without a name over the core. *)
Definition zapNew (zt : zcore) : SugaredLogger := mkSugared "" zt.

(** [Logger.Named]: the empty segment changes nothing; otherwise the segment
    becomes the name, after the old name and a dot if there was one. *)
Definition Named (l : SugaredLogger) (s : string) : SugaredLogger :=
  if decide (s = "") then l
  else mkSugared
         (if decide (sugar_name l = "") then s
          else sugar_name l +:+ "." +:+ s)
         (sugar_core l).

(** [*ZapLogger]: the handle at address [logger_addr] and the sugared logger
    it wraps. *)
Record ZapLogger : Type := mkZapLogger {
  logger_addr : nat;
  logger_sugar : SugaredLogger;
}.

Definition logger_name (zl : ZapLogger) : string :=
  sugar_name (logger_sugar zl).
Definition logger_core (zl : ZapLogger) : zcore :=
  sugar_core (logger_sugar zl).

(** ** The decoded configuration *)

Module cfg.
(** [cfg.Logger]: one declared logger. *)
Record Logger : Type := mkLogger {
  Name : string;
  Level : string;
  AppenderRefs : list string;
}.

(** The root logger block, [config.Loggers.Root]. *)
Record Root : Type := mkRoot {
  RootLevel : string;
  RootAppenderRefs : list string;
}.

(** [config.Loggers]. *)
Record Loggers : Type := mkLoggers {
  root : Root;
  logger : list Logger;
}.

(** [cfg.Config]: the appender blocks by appender type, and the loggers. *)
Record Config (AppenderConfig : Type) : Type := mkConfig {
  Appenders : gmap string (list AppenderConfig);
  loggers : Loggers;
}.
Arguments mkConfig {AppenderConfig} _ _.
Arguments Appenders {AppenderConfig} _.
Arguments loggers {AppenderConfig} _.
End cfg.

(** ** The registry *)

(** [Core].  [nameToLogger] is the [sync.Map]; [rootLevel] is an interface
    value, nil until [New] sets it. *)
Record Core : Type := mkCore {
  nameToLogger : gmap string ZapLogger;
  nameToAppender : gmap string (ptr Appender);
  rootAppenders : gmap string (ptr Appender);
  rootLevel : ptr AtomicLevel;
  rootLevelName : string;
  rootAppenderRefs : list string;
}.

Definition set_nameToLogger (m : gmap string ZapLogger) (c : Core) : Core :=
  mkCore m (nameToAppender c) (rootAppenders c) (rootLevel c)
         (rootLevelName c) (rootAppenderRefs c).
Definition set_nameToAppender (m : gmap string (ptr Appender)) (c : Core)
  : Core :=
  mkCore (nameToLogger c) m (rootAppenders c) (rootLevel c)
         (rootLevelName c) (rootAppenderRefs c).
Definition set_rootAppenders (m : gmap string (ptr Appender)) (c : Core)
  : Core :=
  mkCore (nameToLogger c) (nameToAppender c) m (rootLevel c)
         (rootLevelName c) (rootAppenderRefs c).
Definition set_rootLevel (l : ptr AtomicLevel) (c : Core) : Core :=
  mkCore (nameToLogger c) (nameToAppender c) (rootAppenders c) l
         (rootLevelName c) (rootAppenderRefs c).
Definition set_rootLevelName (s : string) (c : Core) : Core :=
  mkCore (nameToLogger c) (nameToAppender c) (rootAppenders c) (rootLevel c)
         s (rootAppenderRefs c).
Definition set_rootAppenderRefs (l : list string) (c : Core) : Core :=
  mkCore (nameToLogger c) (nameToAppender c) (rootAppenders c) (rootLevel c)
         (rootLevelName c) l.

(** ** The appender registry *)

(** [putAppender]: the registry after the call, and the error (nil on
    success). *)
Definition putAppender (c : Core) (name : string) (a : ptr Appender)
  : Core * option error :=
  if decide (name = "") then (c, Some ErrEmptyName)
  else match a with
  | None => (c, Some ErrNilAppender)
  | Some _ =>
    match nameToAppender c !! name with
    | Some _ => (c, Some (ErrDuplicateName name))
    | None => (set_nameToAppender (<[name := a]> (nameToAppender c)) c, None)
    end
  end.

(** [getAppender]. *)
Definition getAppender (c : Core) (name : string) : outcome (ptr Appender) :=
  match nameToAppender c !! name with
  | None => Fail (ErrNotFound name)
  | Some a => Ret a
  end.

(** ** The world: allocation and map iteration

    [next_addr] is the next free address of the allocator.  Go walks a map
    in an order it does not specify and that changes from one [range] loop
    to the next: [iter_seed] numbers the loops run so far, and the order of
    each loop is a function of that number (see [map_range] below). *)
Record World : Type := mkWorld {
  next_addr : nat;
  iter_seed : nat;
}.

(** Stateful calls: a failed or panicked call leaves nothing to observe. *)
Definition M (A : Type) : Type := World → outcome (A * World).

#[global] Instance M_ret : MRet M := λ A a w, Ret (a, w).
#[global] Instance M_bind : MBind M := λ A B f m w,
  match m w with
  | Ret (a, w') => f a w'
  | Fail e => Fail e
  | Crash => Crash
  end.

Definition lift {A} (o : outcome A) : M A := λ w,
  match o with
  | Ret a => Ret (a, w)
  | Fail e => Fail e
  | Crash => Crash
  end.

(** Allocation of one object. *)
Definition alloc : M nat := λ w,
  Ret (next_addr w, mkWorld (S (next_addr w)) (iter_seed w)).

(** ** Collaborators *)

(** What the package takes from outside:
    - [Unpack]: [cfg.DefaultConfig] followed by [rawConfig.Unpack];
    - [CreateAppender]: [appender.CreateAppender], which returns a pointer
      (possibly nil) or an error;
    - [ConfigName]: the [Name] method of an appender block;
    - [UnmarshalText]: [zapcore.Level.UnmarshalText], [None] on an error;
    - [map_range]: the entries of a map in the order the loop numbered
      [seed] visits them, some permutation of the entries. *)
Class Externals (RawConfig AppenderConfig : Type) : Type := {
  Unpack : RawConfig → string + cfg.Config AppenderConfig;
  CreateAppender : string → AppenderConfig → string + ptr Appender;
  ConfigName : AppenderConfig → string + string;
  UnmarshalText : string → option zapLevel;
  map_range : nat → ∀ A : Type, gmap string A → list (string * A);
  map_range_perm : ∀ seed A (m : gmap string A),
    map_range seed A m ≡ₚ map_to_list m;
}.

(** The result of a collaborator, as an outcome. *)
Definition external {A} (r : string + A) : outcome A :=
  match r with
  | inl msg => Fail (ErrExternal msg)
  | inr a => Ret a
  end.

(** ** String sets of package [common]

    [common.StringSet] is [map[string]struct{}]. *)
Abbreviation StringSet := (gmap string unit).

(** [common.MakeStringSet]: every argument is stored as a key. *)
Definition MakeStringSet (strings : list string) : StringSet :=
  foldl (λ set str, <[str := tt]> set) ∅ strings.

(** ** The concurrent map of loggers *)

(** [sync.Map.LoadOrStore]: the value now under the key, whether it was
    there before, and the map after the call. *)
Definition LoadOrStore (m : gmap string ZapLogger) (key : string)
    (value : ZapLogger) : ZapLogger * bool * gmap string ZapLogger :=
  match m !! key with
  | Some actual => (actual, true, m)
  | None => (value, false, <[key := value]> m)
  end.

(** Modelled from the spec: [NewZapLogger] is declared in a file of the
    package that is not at hand; it wraps the sugared logger as a new Logger
    Handle. *)
Definition NewZapLogger (l : SugaredLogger) : M ZapLogger :=
  addr ← alloc; mret (mkZapLogger addr l).

(** The loop [for _, a := range ... { zcs = append(zcs, NewCore(a.Encoder,
    a.Writer, level)) }] of [newLogger] and [newNamedLogger], over the
    appenders in the order of the walk.  Reading a field of a nil appender
    panics. *)
Fixpoint appendCores (enab : ptr AtomicLevel) (appenders : list (ptr Appender))
  : outcome (list zcore) :=
  match appenders with
  | [] => Ret []
  | None :: _ => Crash
  | Some a :: rest =>
    zcs ← appendCores enab rest;
    mret (NewCore (Encoder a) (Writer a) enab :: zcs)
  end.

(** The loop of [newLogger] that fills [am]: the first reference that is
    not registered ends the call with the error of [getAppender]. *)
Fixpoint resolveRefs (c : Core) (refs : list string)
    (am : gmap string (ptr Appender)) : outcome (gmap string (ptr Appender)) :=
  match refs with
  | [] => Ret am
  | a :: rest =>
    p ← getAppender c a;
    resolveRefs c rest (<[a := p]> am)
  end.

(** The loop of [New] that fills [core.rootAppenders]. *)
Fixpoint resolveRootRefs (core : Core) (refs : list string) : outcome Core :=
  match refs with
  | [] => Ret core
  | appenderRef :: rest =>
    a ← getAppender core appenderRef;
    resolveRootRefs
      (set_rootAppenders (<[appenderRef := a]> (rootAppenders core)) core) rest
  end.

(** The level name and the appender references [newLogger] works with:
    those of the declaration, or those of the root when the declaration has
    an empty level or no reference at all. *)
Definition effectiveLevelName (c : Core) (loggerCfg : cfg.Logger) : string :=
  if decide (cfg.Level loggerCfg = "") then rootLevelName c
  else cfg.Level loggerCfg.

Definition effectiveRefs (c : Core) (loggerCfg : cfg.Logger) : list string :=
  if decide (length (cfg.AppenderRefs loggerCfg) = 0) then rootAppenderRefs c
  else cfg.AppenderRefs loggerCfg.

(** ** What can be seen of a registry and of a handle *)

(** No entry of the registry is a nil appender. *)
Definition registry_ok (c : Core) : Prop :=
  ∀ k p, nameToAppender c !! k = Some p → is_Some p.

(** The core [newLogger] and [newNamedLogger] build for one appender. *)
Definition coreOf (enab : ptr AtomicLevel) (a : Appender) : zcore :=
  NewCore (Encoder a) (Writer a) enab.

(** The appender and the gate of an [IOCore]. *)
Definition sink (zc : zcore) : option Appender :=
  match zc with
  | IOCore enc ws _ => Some (mkAppender enc ws)
  | _ => None
  end.

Definition gate (zc : zcore) : option (ptr AtomicLevel) :=
  match zc with
  | IOCore _ _ enab => Some enab
  | _ => None
  end.

(** The appenders a handle writes to, and the level enablers that gate
    them, one per core of its tee. *)
Definition appendersOf (zl : ZapLogger) : list Appender :=
  omap sink (fanout (logger_core zl)).

Definition gatesOf (zl : ZapLogger) : list (ptr AtomicLevel) :=
  omap gate (fanout (logger_core zl)).

(** The appenders registered under the names of a set. *)
Definition resolved (c : Core) (set : StringSet) : gmap string (ptr Appender) :=
  filter (λ kv, is_Some (set !! kv.1)) (nameToAppender c).

(** The non-nil appenders of a map. *)
Definition appendersIn (am : gmap string (ptr Appender)) : list Appender :=
  omap id (map_to_list am).*2.

(** A handle can be used when every core of its tee is an [IOCore] with a
    level enabler that is not nil (a tee without cores does nothing). *)
Definition usable (zl : ZapLogger) : Prop :=
  Forall (λ zc, ∃ enc ws L, zc = IOCore enc ws (Some L))
         (fanout (logger_core zl)).

Section core.
Context {RawConfig AppenderConfig : Type}.
Context `{!Externals RawConfig AppenderConfig}.

(** One [range] loop over a map. *)
Definition range {A} (m : gmap string A) : M (list (string * A)) := λ w,
  Ret (map_range (iter_seed w) A m,
       mkWorld (next_addr w) (S (iter_seed w))).

(** [StringSet.ToSlice]: the keys, in the order of one walk. *)
Definition ToSlice (set : StringSet) : M (list string) :=
  entries ← range set; mret (entries.*1).

(** [createLevel]: a new atomic level at the parsed severity. *)
Definition createLevel (level : string) : M AtomicLevel :=
  match UnmarshalText level with
  | None => lift (Fail (ErrInvalidLevel level))
  | Some l => addr ← alloc; mret (mkAtomicLevel addr l)
  end.

(** [newLogger]. *)
Definition newLogger (c : Core) (loggerCfg : cfg.Logger) : M ZapLogger :=
  let name := cfg.Name loggerCfg in
  let levelName := effectiveLevelName c loggerCfg in
  let afs := effectiveRefs c loggerCfg in
  level ← createLevel levelName;
  keys ← range (MakeStringSet afs);
  am ← lift (resolveRefs c (keys.*1) ∅);
  if decide (size am = 0) then lift (Fail ErrNoAppenders)
  else
    entries ← range am;
    zcs ← lift (appendCores (Some level) (entries.*2));
    let zt := NewTee zcs in
    let l := Named (zapNew zt) name in
    NewZapLogger l.

(** [newNamedLogger]. *)
Definition newNamedLogger (c : Core) (name : string) : M ZapLogger :=
  entries ← range (rootAppenders c);
  zcs ← lift (appendCores (rootLevel c) (entries.*2));
  let zt := NewTee zcs in
  let l := Named (zapNew zt) name in
  NewZapLogger l.

(** [GetLogger]: the handle, and the registry after the call. *)
Definition GetLogger (c : Core) (name : string) : M (ZapLogger * Core) :=
  match nameToLogger c !! name with
  | Some logger => mret (logger, c)
  | None =>
    zl ← newNamedLogger c name;
    let '(v, _, m) := LoadOrStore (nameToLogger c) name zl in
    mret (v, set_nameToLogger m c)
  end.

(** The inner loop of [New] over the blocks of one appender type. *)
Fixpoint registerConfigs (core : Core) (appenderType : string)
    (appenderConfigs : list AppenderConfig) : outcome Core :=
  match appenderConfigs with
  | [] => Ret core
  | appenderConfig :: rest =>
    a ← external (CreateAppender appenderType appenderConfig);
    name ← external (ConfigName appenderConfig);
    match putAppender core name a with
    | (_, Some err) => Fail err
    | (core', None) => registerConfigs core' appenderType rest
    end
  end.

(** The outer loop of [New] over the appender types. *)
Fixpoint registerGroups (core : Core)
    (groups : list (string * list AppenderConfig)) : outcome Core :=
  match groups with
  | [] => Ret core
  | (appenderType, appenderConfigs) :: rest =>
    core' ← registerConfigs core appenderType appenderConfigs;
    registerGroups core' rest
  end.

(** The loop of [New] over the declared loggers. *)
Fixpoint buildLoggers (core : Core) (lcs : list cfg.Logger) : M Core :=
  match lcs with
  | [] => mret core
  | lc :: rest =>
    l ← newLogger core lc;
    let '(_, loaded, m) := LoadOrStore (nameToLogger core) (cfg.Name lc) l in
    if loaded then lift (Fail (ErrDuplicateLogger (cfg.Name lc)))
    else buildLoggers (set_nameToLogger m core) rest
  end.

(** The registry [New] starts from. *)
Definition emptyCore : Core := mkCore ∅ ∅ ∅ None "" [].

(** [New] from the decoded configuration up to the loop over the declared
    loggers: the appenders, then the root level, then the root
    appenders. *)
Definition startup (config : cfg.Config AppenderConfig) : M Core :=
  let core := emptyCore in
  groups ← range (cfg.Appenders config);
  core ← lift (registerGroups core groups);
  let root := cfg.root (cfg.loggers config) in
  rootLevel ← createLevel (cfg.RootLevel root);
  let core := set_rootLevel (Some rootLevel) core in
  let core := set_rootLevelName (cfg.RootLevel root) core in
  let rootAppenderRefSet := MakeStringSet (cfg.RootAppenderRefs root) in
  keys ← range rootAppenderRefSet;
  core ← lift (resolveRootRefs core (keys.*1));
  slice ← ToSlice rootAppenderRefSet;
  mret (set_rootAppenderRefs slice core).

(** [New]: [Ret] is a registry with a nil error, [Fail] a nil registry
    with the error. *)
Definition New (rawConfig : RawConfig) : M Core :=
  config ← lift (external (Unpack rawConfig));
  core ← startup config;
  buildLoggers core (cfg.logger (cfg.loggers config)).

(** *** Calls of [GetLogger] running side by side

    A call of [GetLogger] is three steps: the [Load], the construction of
    a candidate by [newNamedLogger], and the [LoadOrStore]; each of the
    two map operations is atomic.  The steps of any number of calls
    interleave freely. *)
Inductive call : Type :=
  | Called (name : string)
  | Missed (name : string)
  | Built (name : string) (zl : ZapLogger)
  | Returned (name : string) (v : ZapLogger)
  | Panicked (name : string).

(** The registry, the world, the calls made so far, and the log of the
    stores that [LoadOrStore] performed. *)
Record system : Type := mkSystem {
  sys_core : Core;
  sys_world : World;
  sys_calls : list call;
  sys_stores : list (string * ZapLogger);
}.

Inductive step : system → system → Prop :=
  | step_call c w calls stores name :
      step (mkSystem c w calls stores)
           (mkSystem c w (calls ++ [Called name]) stores)
  | step_load_hit c w calls stores i name logger :
      calls !! i = Some (Called name) →
      nameToLogger c !! name = Some logger →
      step (mkSystem c w calls stores)
           (mkSystem c w (<[i := Returned name logger]> calls) stores)
  | step_load_miss c w calls stores i name :
      calls !! i = Some (Called name) →
      nameToLogger c !! name = None →
      step (mkSystem c w calls stores)
           (mkSystem c w (<[i := Missed name]> calls) stores)
  | step_build c w calls stores i name zl w' :
      calls !! i = Some (Missed name) →
      newNamedLogger c name w = Ret (zl, w') →
      step (mkSystem c w calls stores)
           (mkSystem c w' (<[i := Built name zl]> calls) stores)
  | step_build_panic c w calls stores i name :
      calls !! i = Some (Missed name) →
      newNamedLogger c name w = Crash →
      step (mkSystem c w calls stores)
           (mkSystem c w (<[i := Panicked name]> calls) stores)
  | step_store c w calls stores i name zl v loaded m :
      calls !! i = Some (Built name zl) →
      LoadOrStore (nameToLogger c) name zl = (v, loaded, m) →
      step (mkSystem c w calls stores)
           (mkSystem (set_nameToLogger m c) w
              (<[i := Returned name v]> calls)
              (if loaded then stores else stores ++ [(name, zl)])).

(** The registry the appender blocks of a configuration give, walked in
    the order numbered [seed]. *)
Definition registered (config : cfg.Config AppenderConfig) (seed : nat)
  : outcome Core :=
  registerGroups emptyCore (map_range seed _ (cfg.Appenders config)).

(** What holds of every registry [startup] returns. *)
Definition root_ok (c : Core) : Prop :=
  registry_ok c
  ∧ (∃ L, rootLevel c = Some L
          ∧ UnmarshalText (rootLevelName c) = Some (level_value L))
  ∧ rootAppenders c = resolved c (MakeStringSet (rootAppenderRefs c))
  ∧ (∀ r, r ∈ rootAppenderRefs c → is_Some (nameToAppender c !! r)).

(** One step of the call numbered [i], if it has one left. *)
Definition advance (s : system) (i : nat) : option system :=
  let c := sys_core s in
  match sys_calls s !! i with
  | Some (Called name) =>
    match nameToLogger c !! name with
    | Some logger =>
      Some (mkSystem c (sys_world s)
              (<[i := Returned name logger]> (sys_calls s)) (sys_stores s))
    | None =>
      Some (mkSystem c (sys_world s)
              (<[i := Missed name]> (sys_calls s)) (sys_stores s))
    end
  | Some (Missed name) =>
    match newNamedLogger c name (sys_world s) with
    | Ret (zl, w') =>
      Some (mkSystem c w' (<[i := Built name zl]> (sys_calls s))
              (sys_stores s))
    | Crash =>
      Some (mkSystem c (sys_world s)
              (<[i := Panicked name]> (sys_calls s)) (sys_stores s))
    | Fail _ => None
    end
  | Some (Built name zl) =>
    let '(v, loaded, m) := LoadOrStore (nameToLogger c) name zl in
    Some (mkSystem (set_nameToLogger m c) (sys_world s)
            (<[i := Returned name v]> (sys_calls s))
            (if loaded then sys_stores s else sys_stores s ++ [(name, zl)]))
  | _ => None
  end.

(** A schedule: which call starts or moves next. *)
Inductive action : Type :=
  | Start (name : string)
  | Move (i : nat).

Fixpoint exec (s : system) (schedule : list action) : option system :=
  match schedule with
  | [] => Some s
  | Start name :: rest =>
    exec (mkSystem (sys_core s) (sys_world s) (sys_calls s ++ [Called name])
            (sys_stores s)) rest
  | Move i :: rest =>
    match advance s i with
    | Some s' => exec s' rest
    | None => None
    end
  end.

(** A declaration [newLogger] can build over the registry [c]: its
    effective level name parses, and it has effective references, all of
    them registered. *)
Definition buildable (c : Core) (lc : cfg.Logger) : Prop :=
  is_Some (UnmarshalText (effectiveLevelName c lc))
  ∧ effectiveRefs c lc ≠ []
  ∧ ∀ r, r ∈ effectiveRefs c lc → is_Some (nameToAppender c !! r).

(** Every handle of the map of loggers bears the name it is stored under
    and can be used. *)
Definition handles_ok (c : Core) : Prop :=
  ∀ k zl, nameToLogger c !! k = Some zl → logger_name zl = k ∧ usable zl.

(** What holds along the runs that start from the registry [c0] with no
    call made: the registry differs from [c0] by its map of loggers only,
    the map keeps the handles of [c0], a call that has returned holds the
    handle stored under its name, and the log has at most one store for a
    name, none for a name of [c0], each being the handle now under that
    name. *)
Definition run_inv (c0 : Core) (s : system) : Prop :=
  sys_core s = set_nameToLogger (nameToLogger (sys_core s)) c0
  ∧ (∀ k zl, nameToLogger c0 !! k = Some zl →
             nameToLogger (sys_core s) !! k = Some zl)
  ∧ (∀ i name v, sys_calls s !! i = Some (Returned name v) →
                 nameToLogger (sys_core s) !! name = Some v)
  ∧ NoDup (sys_stores s).*1
  ∧ (∀ name zl, (name, zl) ∈ sys_stores s →
       nameToLogger c0 !! name = None
       ∧ nameToLogger (sys_core s) !! name = Some zl).

(** What holds in addition when [c0] comes from [New]: no call has
    panicked, and the candidates and the returned handles bear the name of
    their call and can be used. *)
Definition call_ok (cl : call) : Prop :=
  match cl with
  | Called _ | Missed _ => True
  | Built name zl | Returned name zl => logger_name zl = name ∧ usable zl
  | Panicked _ => False
  end.

Definition calls_ok (s : system) : Prop :=
  ∀ i cl, sys_calls s !! i = Some cl → call_ok cl.

(** A block, with its appender type, that the loop of [New] registers over
    the registry [core]: the factory makes an appender that is not nil, and
    the name of the block is neither empty nor registered. *)
Definition accepted (core : Core) (tb : string * AppenderConfig) : Prop :=
  ∃ name a, ConfigName tb.2 = inr name ∧ name ≠ ""
            ∧ CreateAppender tb.1 tb.2 = inr (Some a)
            ∧ nameToAppender core !! name = None.
End core.

(** ** A concrete set of collaborators

    Used to run the registry on examples. *)

(** [bytes.ToLower] on ASCII text. *)
Definition lower_ascii (a : ascii) : ascii :=
  let n := nat_of_ascii a in
  if decide (65 ≤ n ≤ 90) then ascii_of_nat (n + 32) else a.

Fixpoint ToLower (s : string) : string :=
  match s with
  | EmptyString => EmptyString
  | String a rest => String (lower_ascii a) (ToLower rest)
  end.

(** The vocabulary of [zapcore.Level.unmarshalText]. *)
Definition unmarshalText (text : string) : option zapLevel :=
  if decide (text = "debug" ∨ text = "DEBUG") then Some DebugLevel
  else if decide (text = "info" ∨ text = "INFO" ∨ text = "") then
    Some InfoLevel
  else if decide (text = "warn" ∨ text = "WARN") then Some WarnLevel
  else if decide (text = "error" ∨ text = "ERROR") then Some ErrorLevel
  else if decide (text = "dpanic" ∨ text = "DPANIC") then Some DPanicLevel
  else if decide (text = "panic" ∨ text = "PANIC") then Some PanicLevel
  else if decide (text = "fatal" ∨ text = "FATAL") then Some FatalLevel
  else None.

(** [zapcore.Level.UnmarshalText]: the text as it is, then in lower case. *)
Definition zapUnmarshalText (text : string) : option zapLevel :=
  match unmarshalText text with
  | Some l => Some l
  | None => unmarshalText (ToLower text)
  end.

(** An appender block of the examples: its name, and the handle its encoder
    and writer get.  The appender types are "console" and "file"; a block
    with handle 0 makes the factory return a nil appender. *)
Record Block : Type := mkBlock {
  block_name : string;
  block_handle : nat;
}.

Definition sampleCreateAppender (appenderType : string) (b : Block)
  : string + ptr Appender :=
  if decide (appenderType = "console" ∨ appenderType = "file") then
    inr (if decide (block_handle b = 0) then None
         else Some (mkAppender (block_handle b) (block_handle b)))
  else inl ("unknown appender type " +:+ appenderType).

(** The walks of the examples: ascending for an even loop number,
    descending for an odd one. *)
Definition sample_range (seed : nat) (A : Type) (m : gmap string A)
  : list (string * A) :=
  if Nat.even seed then map_to_list m else reverse (map_to_list m).

(** The raw configuration of the examples is the decoded one, or nothing
    when it does not decode. *)
Definition sample : Externals (option (cfg.Config Block)) Block := {|
  Unpack raw := match raw with
                | None => inl "cannot unpack"
                | Some config => inr config
                end;
  CreateAppender := sampleCreateAppender;
  ConfigName b := inr (block_name b);
  UnmarshalText := zapUnmarshalText;
  map_range := sample_range;
  map_range_perm := λ seed A m,
    match Nat.even seed as b
      return (if b then map_to_list m else reverse (map_to_list m))
             ≡ₚ map_to_list m
    with
    | true => reflexivity _
    | false => reverse_Permutation _
    end;
|}.

Definition world0 : World := mkWorld 0 0.

(** ** Configurations of the examples

    Two console appenders, "A" and "B"; "C" is the name of no appender. *)
Definition appendersAB : gmap string (list Block) :=
  {[ "console" := [mkBlock "A" 1; mkBlock "B" 2] ]}.

Definition configOf (root : cfg.Root) (lcs : list cfg.Logger)
  : cfg.Config Block :=
  cfg.mkConfig appendersAB (cfg.mkLoggers root lcs).

(** The root writes to "A" at level info. *)
Definition rootA : cfg.Root := cfg.mkRoot "info" ["A"; "A"].

(** The root writes to nothing. *)
Definition rootNone : cfg.Root := cfg.mkRoot "info" [].

Definition svc : cfg.Logger := cfg.mkLogger "svc" "debug" ["B"; "A"; "B"].
Definition db : cfg.Logger := cfg.mkLogger "db" "" [].
Definition audit : cfg.Logger := cfg.mkLogger "audit" "" ["A"; "C"].
Definition svcLoud : cfg.Logger := cfg.mkLogger "svc" "loud" ["A"].
Definition idle : cfg.Logger := cfg.mkLogger "idle" "" [].
Definition idleLoud : cfg.Logger := cfg.mkLogger "idle" "loud" [].

(** The outcome of a call of the examples, with a default for the other
    outcomes. *)
Definition value {A} (default : A) (o : outcome A) : A :=
  match o with
  | Ret a => a
  | _ => default
  end.

(** The registry after the start-up of [configOf rootA _], and the world
    then. *)
Definition startedA : Core * World :=
  Eval vm_compute in
    value (emptyCore, world0) (@startup _ _ sample (configOf rootA []) world0).

(** The same for [configOf rootNone _]. *)
Definition startedNone : Core * World :=
  Eval vm_compute in
    value (emptyCore, world0)
      (@startup _ _ sample (configOf rootNone []) world0).

(** The registry [New] returns for the loggers "svc" and "db" under
    [rootA], and the world then. *)
Definition builtA : Core * World :=
  Eval vm_compute in
    value (emptyCore, world0)
      (@New _ _ sample (Some (configOf rootA [svc; db])) world0).

(** The registry after the appenders of the examples are registered. *)
Definition registeredAB : Core :=
  Eval vm_compute in
    value emptyCore (@registered _ _ sample (configOf rootNone []) 0).

(** A root with a level name that does not parse. *)
Definition rootLoud : cfg.Root := cfg.mkRoot "loud" [].


(** A configuration with two appender blocks of one name, a root without
    references and no declared logger. *)
Definition configTwice : cfg.Config Block :=
  cfg.mkConfig {[ "console" := [mkBlock "A" 1; mkBlock "A" 2] ]}
    (cfg.mkLoggers rootNone []).

(** Two calls of [GetLogger] for "other" that race: both miss, both build
    a candidate, the second stores first. *)
Definition race : list action :=
  [Start "other"; Start "other"; Move 0; Move 1; Move 0; Move 1;
   Move 1; Move 0].

Definition raced : system :=
  Eval vm_compute in
    default (mkSystem emptyCore world0 [] [])
      (@exec _ _ sample (mkSystem builtA.1 builtA.2 [] []) race).

(** A registry that holds a nil appender under "A", referred to by the
    root: no registry of [New], but a value of the type. *)
Definition coreNil : Core :=
  mkCore ∅ {[ "A" := None ]} {[ "A" := None ]} None "info" ["A"].


(** ** Further notions *)

(** The appender blocks of the groups of a configuration, each with its
    appender type, group after group. *)
Definition blocksOf {B} (groups : list (string * list B))
  : list (string * B) :=
  groups ≫= λ g, pair g.1 <$> g.2.

(** All appender blocks of a configuration. *)
Definition allBlocks {B} (config : cfg.Config B) : list (string * B) :=
  blocksOf (map_to_list (cfg.Appenders config)).

(** The handles of a system and their addresses: every stored handle and
    every candidate lies below the allocator; no two names store handles at
    one address; a candidate is at the address of no stored handle and of
    no other candidate. *)
Definition fresh_inv (s : system) : Prop :=
  (∀ k zl, nameToLogger (sys_core s) !! k = Some zl →
           logger_addr zl < next_addr (sys_world s))
  ∧ (∀ i name zl, sys_calls s !! i = Some (Built name zl) →
                  logger_addr zl < next_addr (sys_world s))
  ∧ (∀ k k' zl zl',
       nameToLogger (sys_core s) !! k = Some zl →
       nameToLogger (sys_core s) !! k' = Some zl' →
       logger_addr zl = logger_addr zl' → k = k')
  ∧ (∀ i name zl k zl',
       sys_calls s !! i = Some (Built name zl) →
       nameToLogger (sys_core s) !! k = Some zl' →
       logger_addr zl ≠ logger_addr zl')
  ∧ (∀ i j name name' zl zl',
       sys_calls s !! i = Some (Built name zl) →
       sys_calls s !! j = Some (Built name' zl') →
       i ≠ j → logger_addr zl ≠ logger_addr zl').

(** * Properties *)

(** Unfolds the binds and returns of the two monads. *)
Ltac monad_simpl :=
  repeat (cbn in *;
          unfold mbind, mret, M_bind, M_ret, outcome_bind, outcome_ret,
                 lift, alloc, external in * ).

(** ** String sets *)

Lemma MakeStringSet_foldl (strings : list string) (set : StringSet) k :
  is_Some (foldl (λ set str, <[str := tt]> set) set strings !! k)
  ↔ k ∈ strings ∨ is_Some (set !! k).
Proof.
  revert set. induction strings as [|s strings IH]; intros set; simpl.
  - rewrite elem_of_nil. tauto.
  - rewrite IH, elem_of_cons, lookup_insert. case_decide; subst.
    + split; [auto|]. intros _. right. by eexists.
    + split; [tauto|]. intros [[?|?]|?]; [congruence|auto..].
Qed.

Lemma MakeStringSet_lookup strings k :
  is_Some (MakeStringSet strings !! k) ↔ k ∈ strings.
Proof.
  unfold MakeStringSet. rewrite MakeStringSet_foldl, lookup_empty.
  split; [|auto]. intros [?|[? ?]]; [done|discriminate].
Qed.

Lemma StringSet_eq (s1 s2 : StringSet) :
  (∀ k, is_Some (s1 !! k) ↔ is_Some (s2 !! k)) → s1 = s2.
Proof.
  intros H. apply map_eq. intros k. specialize (H k).
  destruct (s1 !! k) as [[]|], (s2 !! k) as [[]|]; try done.
  - destruct H as [H _]. destruct H as [? ?]; [by eexists|discriminate].
  - destruct H as [_ H]. destruct H as [? ?]; [by eexists|discriminate].
Qed.


Lemma MakeStringSet_nil : MakeStringSet [] = ∅.
Proof. done. Qed.

Lemma MakeStringSet_empty_inv strings :
  MakeStringSet strings = ∅ → strings = [].
Proof.
  intros H. destruct strings as [|s strings]; [done|].
  assert (is_Some (MakeStringSet (s :: strings) !! s)) as [? Hs].
  { apply MakeStringSet_lookup. left. }
  rewrite H, lookup_empty in Hs. discriminate.
Qed.

(** ** The appender registry *)

Lemma putAppender_inv c name a c' r :
  putAppender c name a = (c', r) →
  (r = Some ErrEmptyName ∧ name = "" ∧ c' = c)
  ∨ (r = Some ErrNilAppender ∧ name ≠ "" ∧ a = None ∧ c' = c)
  ∨ (r = Some (ErrDuplicateName name) ∧ name ≠ "" ∧ is_Some a
     ∧ is_Some (nameToAppender c !! name) ∧ c' = c)
  ∨ (r = None ∧ name ≠ "" ∧ is_Some a ∧ nameToAppender c !! name = None
     ∧ c' = set_nameToAppender (<[name := a]> (nameToAppender c)) c).
Proof.
  unfold putAppender. intros H. case_decide as Hn.
  { left. by simplify_eq. }
  destruct a as [a|]; [|right; left; by simplify_eq].
  destruct (nameToAppender c !! name) as [old|] eqn:Hold; simplify_eq.
  - right; right; left. eauto.
  - right; right; right. eauto.
Qed.

Lemma putAppender_ok c name a c' :
  putAppender c name a = (c', None) → registry_ok c → registry_ok c'.
Proof.
  intros H Hok.
  apply putAppender_inv in H
    as [(?&_)|[(?&_)|[(?&_)|(_&_&Ha&_&->)]]]; try discriminate.
  intros k p. simpl. rewrite lookup_insert. case_decide; [|apply Hok].
  by intros [= <-].
Qed.

(** C4, as amended.  [putAppender] refuses an empty name; otherwise a nil
    appender; otherwise a name that is already registered: the first check
    that applies gives the error.  A refused call leaves the registry as it
    was, and an accepted call changes nothing but the one entry it adds. *)
Theorem putAppender_spec (c : Core) (name : string) (a : ptr Appender) :
  (name = "" → putAppender c name a = (c, Some ErrEmptyName))
  ∧ (name ≠ "" → a = None → putAppender c name a = (c, Some ErrNilAppender))
  ∧ (name ≠ "" → is_Some a → is_Some (nameToAppender c !! name) →
     putAppender c name a = (c, Some (ErrDuplicateName name)))
  ∧ (name = "" ∨ a = None ∨ is_Some (nameToAppender c !! name) →
     ∃ e, putAppender c name a = (c, Some e)
          ∧ (e = ErrEmptyName ∨ e = ErrNilAppender
             ∨ e = ErrDuplicateName name))
  ∧ (∀ c' e, putAppender c name a = (c', Some e) →
       c' = c ∧ nameToAppender c' = nameToAppender c)
  ∧ (∀ c', putAppender c name a = (c', None) →
       nameToAppender c !! name = None
       ∧ nameToAppender c' = <[name := a]> (nameToAppender c)
       ∧ (∀ k, k ≠ name → nameToAppender c' !! k = nameToAppender c !! k)
       ∧ nameToLogger c' = nameToLogger c
       ∧ rootAppenders c' = rootAppenders c
       ∧ rootLevel c' = rootLevel c
       ∧ rootLevelName c' = rootLevelName c
       ∧ rootAppenderRefs c' = rootAppenderRefs c).
Proof.
  assert (Hcases : name = "" ∨ a = None ∨ is_Some (nameToAppender c !! name) →
     ∃ e, putAppender c name a = (c, Some e)
          ∧ (e = ErrEmptyName ∨ e = ErrNilAppender
             ∨ e = ErrDuplicateName name)).
  { intros H. unfold putAppender. case_decide; [eauto|].
    destruct a as [a|]; [|eauto].
    destruct H as [?|[?|[old Hold]]]; [done..|]. rewrite Hold. eauto. }
  split_and!; [| | |exact Hcases| |].
  - intros ->. done.
  - intros Hn ->. unfold putAppender. by rewrite decide_False.
  - intros Hn [a' ->] [old Hold]. unfold putAppender.
    by rewrite decide_False, Hold.
  - intros c' e H.
    apply putAppender_inv in H
      as [(?&_&->)|[(?&_&_&->)|[(?&_&_&_&->)|(?&_)]]]; done.
  - intros c' H.
    apply putAppender_inv in H
      as [(?&_)|[(?&_)|[(?&_)|(_&_&_&Hfree&->)]]]; try discriminate.
    split_and!; try done. intros k Hk. simpl. by rewrite lookup_insert_ne.
Qed.

(** ** Auxiliary facts on the loops *)

Lemma fanout_NewTee enab (apps : list Appender) :
  fanout (NewTee (coreOf enab <$> apps)) = coreOf enab <$> apps.
Proof. destruct apps as [|a [|b apps]]; done. Qed.

Lemma sink_coreOf enab (apps : list Appender) :
  omap sink (coreOf enab <$> apps) = apps.
Proof.
  induction apps as [|[e w] apps IH]; [done|]. csimpl. by rewrite IH.
Qed.

Lemma gate_coreOf enab (apps : list Appender) :
  omap gate (coreOf enab <$> apps) = replicate (length apps) enab.
Proof. induction apps as [|a apps IH]; [done|]. csimpl. by rewrite IH. Qed.

Lemma Named_zapNew zt name :
  Named (zapNew zt) name = mkSugared name zt.
Proof. unfold Named, zapNew. case_decide; by subst. Qed.

Lemma appendCores_Ret enab (l : list (ptr Appender)) :
  Forall is_Some l →
  appendCores enab l = Ret (coreOf enab <$> omap id l).
Proof.
  induction 1 as [|p l [a ->] _ IH]; [done|]. csimpl. by rewrite IH.
Qed.

Lemma appendCores_Ret_inv enab (l : list (ptr Appender)) zcs :
  appendCores enab l = Ret zcs →
  ∃ apps, l = Some <$> apps ∧ zcs = coreOf enab <$> apps.
Proof.
  revert zcs. induction l as [|[a|] l IH]; intros zcs H; simpl in H.
  - exists []. by simplify_eq.
  - destruct (appendCores enab l) as [zcs'| |]; monad_simpl; [|done..].
    destruct (IH zcs') as (apps&->&->); [done|]. exists (a :: apps).
    by simplify_eq.
  - done.
Qed.

Lemma appendCores_not_Fail enab (l : list (ptr Appender)) e :
  appendCores enab l ≠ Fail e.
Proof.
  induction l as [|[a|] l IH]; simpl; [done| |done].
  destruct (appendCores enab l); monad_simpl; congruence.
Qed.

Lemma resolveRefs_cases c refs am0 :
  (∃ am, resolveRefs c refs am0 = Ret am
     ∧ (∀ r, r ∈ refs → is_Some (nameToAppender c !! r))
     ∧ ∀ k, am !! k = if decide (k ∈ refs) then nameToAppender c !! k
                      else am0 !! k)
  ∨ (∃ r, r ∈ refs ∧ nameToAppender c !! r = None
       ∧ resolveRefs c refs am0 = Fail (ErrNotFound r)).
Proof.
  revert am0. induction refs as [|a refs IH]; intros am0.
  { left. exists am0. split_and!; [done|by intros r ?%elem_of_nil|].
    intros k. rewrite decide_False; [done|apply not_elem_of_nil]. }
  simpl. unfold getAppender.
  destruct (nameToAppender c !! a) as [p|] eqn:Hp; simpl.
  - destruct (IH (<[a := p]> am0)) as [(am&Ham&Hall&Hlk)|(r&Hr&Hnone&Hf)].
    + left. exists am. split_and!; [done| |].
      * intros r [->|?]%elem_of_cons; [by eexists|auto].
      * intros k. rewrite Hlk.
        destruct (decide (k ∈ refs)) as [Hin|Hnin].
        { rewrite decide_True; [done|by right]. }
        rewrite lookup_insert. case_decide as Hk; subst.
        { rewrite decide_True; [done|left]. }
        rewrite decide_False; [done|]. by intros [?|?]%elem_of_cons.
    + right. exists r. split_and!; [by right|done..].
  - right. exists a. split_and!; [left|done..].
Qed.

Lemma resolveRefs_ext c1 c2 refs am :
  nameToAppender c1 = nameToAppender c2 →
  resolveRefs c1 refs am = resolveRefs c2 refs am.
Proof.
  intros Heq. revert am. induction refs as [|r refs IH]; intros am; [done|].
  simpl. unfold getAppender. rewrite Heq.
  destruct (nameToAppender c2 !! r); simpl; [apply IH|done].
Qed.

Lemma resolveRootRefs_resolveRefs core refs :
  resolveRootRefs core refs
  = am ← resolveRefs core refs (rootAppenders core);
    mret (set_rootAppenders am core).
Proof.
  revert core. induction refs as [|a refs IH]; intros core; simpl.
  { by destruct core. }
  unfold getAppender. destruct (nameToAppender core !! a) as [p|]; simpl;
    [|done].
  rewrite IH. simpl.
  rewrite (resolveRefs_ext _ core) by done.
  by destruct (resolveRefs core refs _).
Qed.

(** When the names walked are the keys of a set, the map the loop fills
    is the registry restricted to the set. *)
Lemma resolved_spec c (set : StringSet) (keys : list string) am :
  (∀ k, k ∈ keys ↔ is_Some (set !! k)) →
  (∀ r, r ∈ keys → is_Some (nameToAppender c !! r)) →
  (∀ k, am !! k = if decide (k ∈ keys) then nameToAppender c !! k
                  else (∅ : gmap string (ptr Appender)) !! k) →
  am = resolved c set.
Proof.
  intros Hkeys Hall Hlk. apply map_eq. intros k. rewrite Hlk.
  unfold resolved. rewrite map_lookup_filter. simpl.
  case_decide as Hin.
  - destruct (nameToAppender c !! k); simpl; [|done].
    rewrite option_guard_True; [done|]. by apply Hkeys.
  - rewrite lookup_empty. destruct (nameToAppender c !! k); simpl; [|done].
    rewrite option_guard_False; [done|]. by rewrite <-Hkeys.
Qed.

Lemma resolved_empty_iff c (set : StringSet) :
  (∀ k, is_Some (set !! k) → is_Some (nameToAppender c !! k)) →
  resolved c set = ∅ ↔ set = ∅.
Proof.
  intros Hall. unfold resolved. split.
  - intros H. apply map_empty. intros k.
    destruct (set !! k) as [[]|] eqn:Hk; [|done]. exfalso.
    destruct (Hall k) as [p Hp]; [by eexists|].
    assert (filter (λ kv, is_Some (set !! kv.1)) (nameToAppender c) !! k
            = Some p) as Hf.
    { apply map_lookup_filter_Some. split; [done|]. simpl. by eexists. }
    rewrite H, lookup_empty in Hf. discriminate.
  - intros ->. apply map_empty. intros k. apply map_lookup_filter_None.
    right. intros p _ [? Hk]. simpl in Hk. by rewrite lookup_empty in Hk.
Qed.

Lemma resolved_lookup c (set : StringSet) k p :
  resolved c set !! k = Some p
  ↔ nameToAppender c !! k = Some p ∧ is_Some (set !! k).
Proof. unfold resolved. by rewrite map_lookup_filter_Some. Qed.

Lemma resolved_is_Some c set :
  registry_ok c → Forall is_Some (map_to_list (resolved c set)).*2.
Proof.
  intros Hok. apply Forall_forall. intros p Hp.
  apply list_elem_of_fmap in Hp as ([k p']&->&Hkp).
  apply elem_of_map_to_list in Hkp. apply resolved_lookup in Hkp as [Hkp _].
  by eapply Hok.
Qed.

(** ** The logger factory *)

Section factory.
Context {RawConfig AppenderConfig : Type}.
Context `{!Externals RawConfig AppenderConfig}.

Lemma range_keys {A} seed (m : gmap string A) k :
  k ∈ (map_range seed A m).*1 ↔ is_Some (m !! k).
Proof.
  rewrite map_range_perm. split.
  - intros ([k' v]&->&Hkv)%list_elem_of_fmap.
    apply elem_of_map_to_list in Hkv. by eexists.
  - intros [v Hv]. apply list_elem_of_fmap. exists (k, v).
    split; [done|]. by apply elem_of_map_to_list.
Qed.

Lemma range_nil_iff {A} seed (m : gmap string A) :
  map_range seed A m = [] ↔ m = ∅.
Proof.
  split.
  - intros H. apply map_to_list_empty_iff. apply Permutation_nil_r.
    by rewrite <-(map_range_perm seed), H.
  - intros ->. apply Permutation_nil_r.
    by rewrite map_range_perm, map_to_list_empty.
Qed.

(** [newLogger], step by step. *)
Lemma newLogger_unfold c lc w :
  newLogger c lc w =
  match UnmarshalText (effectiveLevelName c lc) with
  | None => Fail (ErrInvalidLevel (effectiveLevelName c lc))
  | Some lv =>
    match resolveRefs c
            (map_range (iter_seed w) _
               (MakeStringSet (effectiveRefs c lc))).*1 ∅ with
    | Ret am =>
      if decide (size am = 0) then Fail ErrNoAppenders
      else
        match appendCores (Some (mkAtomicLevel (next_addr w) lv))
                (map_range (S (iter_seed w)) _ am).*2 with
        | Ret zcs =>
          Ret (mkZapLogger (S (next_addr w))
                 (mkSugared (cfg.Name lc) (NewTee zcs)),
               mkWorld (S (S (next_addr w))) (S (S (iter_seed w))))
        | Fail e => Fail e
        | Crash => Crash
        end
    | Fail e => Fail e
    | Crash => Crash
    end
  end.
Proof.
  unfold newLogger, createLevel, range, NewZapLogger.
  destruct (UnmarshalText _) as [lv|]; [|done]. monad_simpl.
  destruct (resolveRefs _ _ _) as [am| |]; [|done..].
  case_decide; [done|].
  destruct (appendCores _ _) as [zcs| |]; [|done..].
  by rewrite Named_zapNew.
Qed.

(** What the resolution loop of [newLogger] gives, whatever the walk. *)
Lemma newLogger_resolve c (refs : list string) seed :
  (∃ am, resolveRefs c (map_range seed _ (MakeStringSet refs)).*1 ∅ = Ret am
     ∧ (∀ r, r ∈ refs → is_Some (nameToAppender c !! r))
     ∧ am = resolved c (MakeStringSet refs))
  ∨ (∃ r, r ∈ refs ∧ nameToAppender c !! r = None
       ∧ resolveRefs c (map_range seed _ (MakeStringSet refs)).*1 ∅
         = Fail (ErrNotFound r)).
Proof.
  destruct (resolveRefs_cases c
              (map_range seed _ (MakeStringSet refs)).*1 ∅)
    as [(am&Ham&Hall&Hlk)|(r&Hr&Hnone&Hf)].
  - left. exists am. split_and!; [done| |].
    + intros r Hr. apply Hall, range_keys. by apply MakeStringSet_lookup.
    + eapply resolved_spec; [|done..]. intros k. apply range_keys.
  - right. exists r. split_and!; [|done..].
    by apply range_keys, MakeStringSet_lookup in Hr.
Qed.

Lemma newLogger_invalid_level c lc w :
  UnmarshalText (effectiveLevelName c lc) = None →
  newLogger c lc w = Fail (ErrInvalidLevel (effectiveLevelName c lc)).
Proof. intros H. by rewrite newLogger_unfold, H. Qed.

Lemma newLogger_not_found c lc w :
  is_Some (UnmarshalText (effectiveLevelName c lc)) →
  (∃ r, r ∈ effectiveRefs c lc ∧ nameToAppender c !! r = None) →
  ∃ r, r ∈ effectiveRefs c lc ∧ nameToAppender c !! r = None
       ∧ newLogger c lc w = Fail (ErrNotFound r).
Proof.
  intros [lv Hlv] (r0&Hr0&Hnone0). rewrite newLogger_unfold, Hlv.
  destruct (newLogger_resolve c (effectiveRefs c lc) (iter_seed w))
    as [(am&_&Hall&_)|(r&Hr&Hnone&->)]; [|by eauto].
  destruct (Hall r0 Hr0) as [? ?]. congruence.
Qed.

Lemma newLogger_no_appenders c lc w :
  is_Some (UnmarshalText (effectiveLevelName c lc)) →
  effectiveRefs c lc = [] →
  newLogger c lc w = Fail ErrNoAppenders.
Proof.
  intros [lv Hlv] Hnil. rewrite newLogger_unfold, Hlv, Hnil.
  destruct (newLogger_resolve c [] (iter_seed w))
    as [(am&->&_&->)|(r&Hr&_)]; [|by apply elem_of_nil in Hr].
  rewrite decide_True; [done|]. apply map_size_empty_iff.
  apply resolved_empty_iff; [|done]. intros k [? Hk].
  by rewrite MakeStringSet_nil, lookup_empty in Hk.
Qed.

(** A successful build: the handle is allocated after its level, and its
    tee has one core per appender registered under the names of the
    effective references, all gated by that level. *)
Lemma newLogger_Ret c lc w :
  Forall is_Some
    (map_to_list (resolved c (MakeStringSet (effectiveRefs c lc)))).*2 →
  ∀ lv, UnmarshalText (effectiveLevelName c lc) = Some lv →
  effectiveRefs c lc ≠ [] →
  (∀ r, r ∈ effectiveRefs c lc → is_Some (nameToAppender c !! r)) →
  ∃ apps,
    apps ≡ₚ appendersIn (resolved c (MakeStringSet (effectiveRefs c lc)))
    ∧ newLogger c lc w
      = Ret (mkZapLogger (S (next_addr w))
               (mkSugared (cfg.Name lc)
                  (NewTee (coreOf (Some (mkAtomicLevel (next_addr w) lv))
                           <$> apps))),
             mkWorld (S (S (next_addr w))) (S (S (iter_seed w)))).
Proof.
  intros Hok lv Hlv Hne Hreg. rewrite newLogger_unfold, Hlv.
  destruct (newLogger_resolve c (effectiveRefs c lc) (iter_seed w))
    as [(am&->&_&->)|(r&Hr&Hnone&_)].
  2:{ destruct (Hreg r Hr) as [? ?]. congruence. }
  rewrite decide_False.
  2:{ rewrite map_size_empty_iff, resolved_empty_iff.
      - intros Hset. by apply MakeStringSet_empty_inv in Hset.
      - intros k Hk. by apply Hreg, MakeStringSet_lookup. }
  set (am := resolved c _).
  rewrite appendCores_Ret.
  2:{ by rewrite map_range_perm. }
  eexists. split; [|done]. unfold appendersIn.
  by rewrite map_range_perm.
Qed.

(** Conversely, a handle comes only out of a build of that shape. *)
Lemma newLogger_Ret_inv c lc w zl w' :
  newLogger c lc w = Ret (zl, w') →
  ∃ lv apps,
    UnmarshalText (effectiveLevelName c lc) = Some lv
    ∧ effectiveRefs c lc ≠ []
    ∧ (∀ r, r ∈ effectiveRefs c lc → is_Some (nameToAppender c !! r))
    ∧ Some <$> apps
      ≡ₚ (map_to_list
            (resolved c (MakeStringSet (effectiveRefs c lc)))).*2
    ∧ zl = mkZapLogger (S (next_addr w))
             (mkSugared (cfg.Name lc)
                (NewTee (coreOf (Some (mkAtomicLevel (next_addr w) lv))
                         <$> apps)))
    ∧ w' = mkWorld (S (S (next_addr w))) (S (S (iter_seed w))).
Proof.
  rewrite newLogger_unfold.
  destruct (UnmarshalText _) as [lv|] eqn:Hlv; [|done].
  destruct (newLogger_resolve c (effectiveRefs c lc) (iter_seed w))
    as [(am&->&Hall&->)|(r&Hr&Hnone&->)]; [|done].
  case_decide as Hsize; [done|].
  set (am := resolved c _) in *.
  assert (Hperm := map_range_perm (S (iter_seed w)) _ am).
  revert Hperm. generalize (map_range (S (iter_seed w)) _ am).
  intros entries Hperm H.
  destruct (appendCores _ entries.*2) as [zcs| |] eqn:Hcores; [|done..].
  apply appendCores_Ret_inv in Hcores as (apps&Happs&->).
  exists lv, apps. split_and!; try done.
  - intros Hnil. apply Hsize. apply map_size_empty_iff.
    unfold am. rewrite Hnil. apply resolved_empty_iff; [|done].
    intros k [? Hk]. by rewrite MakeStringSet_nil, lookup_empty in Hk.
  - by rewrite <-Happs, Hperm.
  - congruence.
  - congruence.
Qed.

(** [newLogger] does not read the map of loggers. *)
Lemma newLogger_set_nameToLogger m c lc w :
  newLogger (set_nameToLogger m c) lc w = newLogger c lc w.
Proof.
  rewrite !newLogger_unfold. unfold effectiveLevelName, effectiveRefs.
  simpl. by rewrite (resolveRefs_ext _ c).
Qed.

(** *** The loops of [New] *)

Lemma registerConfigs_inv core appenderType blocks core' :
  registerConfigs core appenderType blocks = Ret core' →
  core' = set_nameToAppender (nameToAppender core') core
  ∧ (registry_ok core → registry_ok core').
Proof.
  revert core. induction blocks as [|b blocks IH]; intros core H.
  { simpl in H. simplify_eq. split; [by destruct core'|done]. }
  simpl in H.
  destruct (CreateAppender appenderType b) as [?|a]; [done|].
  destruct (ConfigName b) as [?|name]; [done|]. monad_simpl.
  destruct (putAppender core name a) as [core1 [e|]] eqn:Hput; [done|].
  apply IH in H as [Heq Hok]. split.
  - rewrite Heq. apply putAppender_inv in Hput
      as [(?&_)|[(?&_)|[(?&_)|(_&_&_&_&->)]]]; try discriminate.
    by destruct core.
  - intros Hcore. apply Hok. by eapply putAppender_ok.
Qed.

Lemma registerConfigs_not_Crash core appenderType blocks :
  registerConfigs core appenderType blocks ≠ Crash.
Proof.
  revert core. induction blocks as [|b blocks IH]; intros core; [done|].
  simpl. destruct (CreateAppender appenderType b) as [?|a]; [done|].
  destruct (ConfigName b) as [?|name]; [done|]. monad_simpl.
  destruct (putAppender core name a) as [core1 [e|]]; [done|]. apply IH.
Qed.

Lemma registerGroups_inv core groups core' :
  registerGroups core groups = Ret core' →
  core' = set_nameToAppender (nameToAppender core') core
  ∧ (registry_ok core → registry_ok core').
Proof.
  revert core. induction groups as [|[ty blocks] groups IH]; intros core H.
  { simpl in H. simplify_eq. split; [by destruct core'|done]. }
  simpl in H.
  destruct (registerConfigs core ty blocks) as [core1| |] eqn:H1;
    [|done..]. monad_simpl.
  apply registerConfigs_inv in H1 as [Heq1 Hok1].
  apply IH in H as [Heq Hok]. split; [|tauto].
  rewrite Heq, Heq1. by destruct core.
Qed.

Lemma registerGroups_not_Crash core groups :
  registerGroups core groups ≠ Crash.
Proof.
  revert core. induction groups as [|[ty blocks] groups IH]; intros core;
    [done|].
  simpl.
  destruct (registerConfigs core ty blocks) as [core1| |] eqn:H1;
    monad_simpl; [apply IH|done|].
  by apply registerConfigs_not_Crash in H1.
Qed.

(** [startup], step by step. *)
Lemma startup_unfold config w :
  startup config w =
  match registered config (iter_seed w) with
  | Ret c0 =>
    let root := cfg.root (cfg.loggers config) in
    let set := MakeStringSet (cfg.RootAppenderRefs root) in
    match UnmarshalText (cfg.RootLevel root) with
    | None => Fail (ErrInvalidLevel (cfg.RootLevel root))
    | Some lv =>
      match resolveRefs c0 (map_range (S (iter_seed w)) _ set).*1 ∅ with
      | Ret am =>
        Ret (mkCore ∅ (nameToAppender c0) am
               (Some (mkAtomicLevel (next_addr w) lv))
               (cfg.RootLevel root)
               (map_range (S (S (iter_seed w))) _ set).*1,
             mkWorld (S (next_addr w)) (S (S (S (iter_seed w)))))
      | Fail e => Fail e
      | Crash => Crash
      end
    end
  | Fail e => Fail e
  | Crash => Crash
  end.
Proof.
  unfold startup, registered, createLevel, ToSlice, range. monad_simpl.
  destruct (registerGroups _ _) as [c0| |] eqn:Hreg; [|done..].
  apply registerGroups_inv in Hreg as [Hc0 _].
  destruct (UnmarshalText _) as [lv|]; [|done]. monad_simpl.
  rewrite resolveRootRefs_resolveRefs. monad_simpl.
  rewrite (resolveRefs_ext _ c0) by done.
  assert (rootAppenders c0 = ∅) as -> by (by rewrite Hc0).
  destruct (resolveRefs c0 _ _) as [am| |]; monad_simpl; [|done..].
  by rewrite Hc0.
Qed.

Lemma startup_Ret_inv config w c w' :
  startup config w = Ret (c, w') →
  let root := cfg.root (cfg.loggers config) in
  root_ok c
  ∧ (∃ c0, registered config (iter_seed w) = Ret c0
           ∧ nameToAppender c = nameToAppender c0)
  ∧ nameToLogger c = ∅
  ∧ (∃ lv, UnmarshalText (cfg.RootLevel root) = Some lv
           ∧ rootLevel c = Some (mkAtomicLevel (next_addr w) lv))
  ∧ rootLevelName c = cfg.RootLevel root
  ∧ MakeStringSet (rootAppenderRefs c)
    = MakeStringSet (cfg.RootAppenderRefs root)
  ∧ (∀ r, r ∈ cfg.RootAppenderRefs root →
          is_Some (nameToAppender c !! r))
  ∧ next_addr w' = S (next_addr w).
Proof.
  rewrite startup_unfold. intros H root.
  destruct (registered config (iter_seed w)) as [c0| |] eqn:Hreg;
    [|done..].
  cbn zeta in H. fold root in H.
  destruct (UnmarshalText (cfg.RootLevel root)) as [lv|] eqn:Hlv; [|done].
  destruct (newLogger_resolve c0 (cfg.RootAppenderRefs root)
              (S (iter_seed w)))
    as [(am&Ham&Hall&->)|(r&Hr&Hnone&Hf)]; [|by rewrite Hf in H].
  rewrite Ham in H. simplify_eq.
  assert (Hset : MakeStringSet
            (map_range (S (S (iter_seed w))) _
               (MakeStringSet (cfg.RootAppenderRefs root))).*1
          = MakeStringSet (cfg.RootAppenderRefs root)).
  { apply StringSet_eq. intros k.
    by rewrite MakeStringSet_lookup, range_keys. }
  apply registerGroups_inv in Hreg as Hinv. destruct Hinv as [_ Hok].
  split_and!; simpl; try done.
  - assert (registry_ok c0) as Hc0.
    { apply Hok. intros k p Hk. unfold emptyCore in Hk. simpl in Hk.
      by rewrite lookup_empty in Hk. }
    repeat split; simpl.
    + intros k p Hk. by eapply Hc0.
    + eexists. split; [done|]. done.
    + by rewrite Hset.
    + intros r Hr. apply Hall. apply MakeStringSet_lookup.
      by apply range_keys in Hr.
  - by eexists.
  - by eexists.
Qed.

(** The loop over the declared loggers, one round. *)
Lemma buildLoggers_cons core lc rest w :
  buildLoggers core (lc :: rest) w =
  match newLogger core lc w with
  | Ret (l, w1) =>
    match nameToLogger core !! cfg.Name lc with
    | Some _ => Fail (ErrDuplicateLogger (cfg.Name lc))
    | None =>
      buildLoggers
        (set_nameToLogger (<[cfg.Name lc := l]> (nameToLogger core)) core)
        rest w1
    end
  | Fail e => Fail e
  | Crash => Crash
  end.
Proof.
  simpl. monad_simpl. destruct (newLogger core lc w) as [[l w1]| |];
    [|done..].
  unfold LoadOrStore. by destruct (nameToLogger core !! cfg.Name lc).
Qed.

(** A registry that comes out of the loop holds, next to the loggers it
    held before, one handle per declaration, built by [newLogger] for that
    declaration in a later world; the declared names are pairwise
    distinct and were free before. *)
Lemma buildLoggers_Ret_inv core lcs w c w' :
  buildLoggers core lcs w = Ret (c, w') →
  c = set_nameToLogger (nameToLogger c) core
  ∧ NoDup (cfg.Name <$> lcs)
  ∧ (∀ lc, lc ∈ lcs → nameToLogger core !! cfg.Name lc = None)
  ∧ (∀ k zl, nameToLogger core !! k = Some zl →
             nameToLogger c !! k = Some zl)
  ∧ (∀ lc, lc ∈ lcs → ∃ zl w1 w2,
        nameToLogger c !! cfg.Name lc = Some zl
        ∧ newLogger core lc w1 = Ret (zl, w2)
        ∧ next_addr w ≤ next_addr w1)
  ∧ (∀ k zl, nameToLogger c !! k = Some zl →
        nameToLogger core !! k = Some zl
        ∨ ∃ lc w1 w2, lc ∈ lcs ∧ k = cfg.Name lc
            ∧ newLogger core lc w1 = Ret (zl, w2)
            ∧ next_addr w ≤ next_addr w1)
  ∧ next_addr w ≤ next_addr w'.
Proof.
  revert core w. induction lcs as [|lc rest IH]; intros core w H.
  { simpl in H. monad_simpl. simplify_eq.
    split_and!; try done; [by destruct c|constructor|..].
    - by intros lc ?%elem_of_nil.
    - by intros lc ?%elem_of_nil.
    - auto. }
  rewrite buildLoggers_cons in H.
  destruct (newLogger core lc w) as [[l w1]| |] eqn:Hnew; [|done..].
  destruct (nameToLogger core !! cfg.Name lc) eqn:Hfree; [done|].
  apply newLogger_Ret_inv in Hnew as Hinv.
  destruct Hinv as (lv&apps&_&_&_&_&_&Hw1).
  assert (next_addr w ≤ next_addr w1) as Hle by (subst w1; simpl; lia).
  apply IH in H as (Hc&Hnd&Hfresh&Hkeep&Hdecl&Horigin&Hw).
  simpl in Hfresh, Hkeep, Horigin, Hdecl.
  assert (Hlc : ∀ lc', lc' ∈ rest → cfg.Name lc' ≠ cfg.Name lc).
  { intros lc' Hin Heq. specialize (Hfresh lc' Hin).
    by rewrite Heq, lookup_insert_eq in Hfresh. }
  split_and!.
  - rewrite Hc. by destruct core.
  - rewrite fmap_cons. constructor; [|done].
    intros (lc'&Heq&Hin)%list_elem_of_fmap. by eapply Hlc.
  - intros lc' [->|Hin]%elem_of_cons; [done|].
    specialize (Hfresh lc' Hin).
    rewrite lookup_insert_ne in Hfresh; [done|]. intros ?. by eapply Hlc.
  - intros k zl Hk. apply Hkeep. rewrite lookup_insert_ne; [done|].
    congruence.
  - intros lc' [->|Hin]%elem_of_cons.
    + exists l, w, w1. split_and!; [|done..].
      apply Hkeep. by rewrite lookup_insert_eq.
    + destruct (Hdecl lc' Hin) as (zl&wa&wb&Hzl&Hb&Hwa).
      rewrite newLogger_set_nameToLogger in Hb.
      exists zl, wa, wb. split_and!; [done..|lia].
  - intros k zl Hk. destruct (Horigin k zl Hk) as [Hold|Hbuilt].
    + destruct (decide (cfg.Name lc = k)) as [Heq|Hne].
      2:{ left. by rewrite lookup_insert_ne in Hold. }
      subst k. rewrite lookup_insert_eq in Hold. injection Hold as <-.
      right. exists lc, w, w1. split_and!; try done. left.
    + destruct Hbuilt as (lc'&wa&wb&Hin&->&Hb&Hwa).
      rewrite newLogger_set_nameToLogger in Hb.
      right. exists lc', wa, wb. split_and!; try done; [by right|lia].
  - lia.
Qed.

(** *** What can be seen of a handle *)

Lemma omap_id_Some {A} (l : list A) : omap id (Some <$> l) = l.
Proof. induction l as [|a l IH]; [done|]. csimpl. by rewrite IH. Qed.

Lemma built_handle_obs addr name enab (apps : list Appender) :
  let zl := mkZapLogger addr
              (mkSugared name (NewTee (coreOf enab <$> apps))) in
  logger_name zl = name
  ∧ logger_addr zl = addr
  ∧ appendersOf zl = apps
  ∧ gatesOf zl = replicate (length apps) enab
  ∧ length (fanout (logger_core zl)) = length apps
  ∧ (is_Some enab → usable zl).
Proof.
  intros zl. unfold appendersOf, gatesOf, usable, logger_core, zl. simpl.
  rewrite fanout_NewTee, sink_coreOf, gate_coreOf, length_fmap.
  split_and!; try done. intros [L ->]. apply Forall_fmap, Forall_true.
  intros [e ws]. simpl. by eexists _, _, _.
Qed.

Lemma newLogger_Ret_obs c lc w zl w' :
  newLogger c lc w = Ret (zl, w') →
  ∃ lv,
    UnmarshalText (effectiveLevelName c lc) = Some lv
    ∧ logger_name zl = cfg.Name lc
    ∧ logger_addr zl = S (next_addr w)
    ∧ appendersOf zl
      ≡ₚ appendersIn (resolved c (MakeStringSet (effectiveRefs c lc)))
    ∧ appendersOf zl ≠ []
    ∧ gatesOf zl = replicate (length (appendersOf zl))
                     (Some (mkAtomicLevel (next_addr w) lv))
    ∧ length (fanout (logger_core zl)) = length (appendersOf zl)
    ∧ usable zl
    ∧ next_addr w' = S (S (next_addr w)).
Proof.
  intros H. apply newLogger_Ret_inv in H
    as (lv&apps&Hlv&Hne&Hreg&Hperm&->&->).
  destruct (built_handle_obs (S (next_addr w)) (cfg.Name lc)
              (Some (mkAtomicLevel (next_addr w) lv)) apps)
    as (Hn&Ha&Happs&Hg&Hlen&Hus).
  exists lv. rewrite Happs. split_and!; try done.
  - unfold appendersIn. by rewrite <-Hperm, omap_id_Some.
  - intros ->. rewrite fmap_nil in Hperm. symmetry in Hperm.
    apply Permutation_nil_r, fmap_nil_inv, map_to_list_empty_iff in Hperm.
    apply resolved_empty_iff in Hperm.
    + by apply MakeStringSet_empty_inv in Hperm.
    + intros k Hk. by apply Hreg, MakeStringSet_lookup.
  - apply Hus. by eexists.
Qed.

(** [New], phase by phase. *)
Lemma New_Ret_inv raw w0 c w1 :
  New raw w0 = Ret (c, w1) →
  ∃ config c1 wa,
    Unpack raw = inr config
    ∧ startup config w0 = Ret (c1, wa)
    ∧ buildLoggers c1 (cfg.logger (cfg.loggers config)) wa = Ret (c, w1).
Proof.
  unfold New. monad_simpl. intros H.
  destruct (Unpack raw) as [?|config]; [done|]. monad_simpl.
  destruct (startup config w0) as [[c1 wa]| |] eqn:Hs; [|done..].
  by exists config, c1, wa.
Qed.

Lemma root_ok_set_nameToLogger m c :
  root_ok c → root_ok (set_nameToLogger m c).
Proof. done. Qed.

Lemma New_root_ok raw w0 c w1 : New raw w0 = Ret (c, w1) → root_ok c.
Proof.
  intros (config&c1&wa&_&Hs&Hb)%New_Ret_inv.
  apply startup_Ret_inv in Hs as (Hok&_).
  apply buildLoggers_Ret_inv in Hb as (->&_). by apply root_ok_set_nameToLogger.
Qed.

(** C3.  [New] runs [newLogger] on the registry [startup] returns, with
    the loggers stored so far.  There, a declaration with an empty level is
    built at the root's level name: whenever its references resolve,
    [newLogger] returns a handle whose cores are gated by a level with the
    severity of the root's level.  A declaration without appender
    references is built over the root's references, the same set of names
    as in the root block: whenever its level parses and the root has
    references, [newLogger] returns a handle that writes to the root's
    appenders, and when the root has none it returns no handle.  A
    declaration with references of its own is built over those and no
    other: whenever its level parses and they are registered, [newLogger]
    returns a handle that writes to the appenders registered under its own
    names only.  In particular a declaration with neither level nor
    references, under a root with references, always gets a handle, at the
    root's severity and over the root's appenders. *)
Theorem newLogger_root_fallback config w0 c1 wa m (lc : cfg.Logger) w :
  startup config w0 = Ret (c1, wa) →
  let c := set_nameToLogger m c1 in
  let root := cfg.root (cfg.loggers config) in
  (cfg.Level lc = "" →
     effectiveLevelName c lc = cfg.RootLevel root
     ∧ newLogger c lc w
       = newLogger c (cfg.mkLogger (cfg.Name lc) (cfg.RootLevel root)
                        (cfg.AppenderRefs lc)) w
     ∧ (∀ zl w', newLogger c lc w = Ret (zl, w') →
         ∃ R L, rootLevel c = Some R
           ∧ gatesOf zl = replicate (length (appendersOf zl)) (Some L)
           ∧ level_value L = level_value R)
     ∧ (effectiveRefs c lc ≠ [] →
        (∀ r, r ∈ effectiveRefs c lc → is_Some (nameToAppender c !! r)) →
        ∃ zl w' R L,
          newLogger c lc w = Ret (zl, w')
          ∧ logger_name zl = cfg.Name lc
          ∧ rootLevel c = Some R
          ∧ appendersOf zl ≠ []
          ∧ gatesOf zl = replicate (length (appendersOf zl)) (Some L)
          ∧ level_value L = level_value R))
  ∧ (cfg.AppenderRefs lc = [] →
     effectiveRefs c lc = rootAppenderRefs c
     ∧ MakeStringSet (effectiveRefs c lc)
       = MakeStringSet (cfg.RootAppenderRefs root)
     ∧ newLogger c lc w
       = newLogger c (cfg.mkLogger (cfg.Name lc) (cfg.Level lc)
                        (rootAppenderRefs c)) w
     ∧ (∀ zl w', newLogger c lc w = Ret (zl, w') →
         appendersOf zl ≡ₚ appendersIn (rootAppenders c))
     ∧ (cfg.RootAppenderRefs root ≠ [] →
        is_Some (UnmarshalText (effectiveLevelName c lc)) →
        ∃ zl w',
          newLogger c lc w = Ret (zl, w')
          ∧ logger_name zl = cfg.Name lc
          ∧ appendersOf zl ≡ₚ appendersIn (rootAppenders c)
          ∧ appendersOf zl ≠ [])
     ∧ (cfg.RootAppenderRefs root = [] →
        ∃ e, newLogger c lc w = Fail e
             ∧ (is_Some (UnmarshalText (effectiveLevelName c lc)) →
                e = ErrNoAppenders)))
  ∧ (cfg.AppenderRefs lc ≠ [] →
     effectiveRefs c lc = cfg.AppenderRefs lc
     ∧ (∀ zl w', newLogger c lc w = Ret (zl, w') →
         appendersOf zl
         ≡ₚ appendersIn (resolved c (MakeStringSet (cfg.AppenderRefs lc))))
     ∧ (is_Some (UnmarshalText (effectiveLevelName c lc)) →
        (∀ r, r ∈ cfg.AppenderRefs lc → is_Some (nameToAppender c !! r)) →
        ∃ zl w',
          newLogger c lc w = Ret (zl, w')
          ∧ logger_name zl = cfg.Name lc
          ∧ appendersOf zl
            ≡ₚ appendersIn (resolved c (MakeStringSet (cfg.AppenderRefs lc)))
          ∧ appendersOf zl ≠ []))
  ∧ (cfg.Level lc = "" → cfg.AppenderRefs lc = [] →
     cfg.RootAppenderRefs root ≠ [] →
     ∃ zl w' R L,
       newLogger c lc w = Ret (zl, w')
       ∧ logger_name zl = cfg.Name lc
       ∧ rootLevel c = Some R
       ∧ gatesOf zl = replicate (length (appendersOf zl)) (Some L)
       ∧ level_value L = level_value R
       ∧ appendersOf zl ≡ₚ appendersIn (rootAppenders c)
       ∧ appendersOf zl ≠ []).
Proof.
  intros Hs c root.
  apply startup_Ret_inv in Hs
    as ((Hreg&(R&HR&Hparse)&Hroot&Hall)&_&_&_&Hname&Hset&_).
  fold root in Hname, Hset.
  (* what a build that goes through returns *)
  assert (Hbuild : ∀ lv,
    UnmarshalText (effectiveLevelName c lc) = Some lv →
    effectiveRefs c lc ≠ [] →
    (∀ r, r ∈ effectiveRefs c lc → is_Some (nameToAppender c !! r)) →
    ∃ zl w',
      newLogger c lc w = Ret (zl, w')
      ∧ logger_name zl = cfg.Name lc
      ∧ appendersOf zl
        ≡ₚ appendersIn (resolved c (MakeStringSet (effectiveRefs c lc)))
      ∧ appendersOf zl ≠ []
      ∧ gatesOf zl = replicate (length (appendersOf zl))
                       (Some (mkAtomicLevel (next_addr w) lv))).
  { intros lv Hlv Hne Hregd.
    destruct (newLogger_Ret c lc w) with (lv := lv) as (apps&_&Hnew);
      [by apply (resolved_is_Some c)|done..|].
    eexists _, _. split; [exact Hnew|].
    apply newLogger_Ret_obs in Hnew as (lv'&Hlv'&?&_&?&?&Hg&_).
    assert (lv' = lv) as -> by congruence. done. }
  assert (Hefflevel : cfg.Level lc = "" →
            effectiveLevelName c lc = cfg.RootLevel root).
  { intros Hlevel. unfold effectiveLevelName. by rewrite decide_True. }
  assert (Heffroot : cfg.AppenderRefs lc = [] →
            effectiveRefs c lc = rootAppenderRefs c).
  { intros Hrefs. unfold effectiveRefs. by rewrite Hrefs, decide_True. }
  assert (Heffown : cfg.AppenderRefs lc ≠ [] →
            effectiveRefs c lc = cfg.AppenderRefs lc).
  { intros Hrefs. unfold effectiveRefs. rewrite decide_False; [done|].
    by destruct (cfg.AppenderRefs lc). }
  assert (Hrootlv : UnmarshalText (cfg.RootLevel root)
                    = Some (level_value R)) by by rewrite <-Hname.
  assert (Hrootne : cfg.RootAppenderRefs root ≠ [] → rootAppenderRefs c ≠ []).
  { intros Hne Hnil. apply Hne. apply MakeStringSet_empty_inv.
    rewrite <-Hset. simpl in Hnil. by rewrite Hnil. }
  split_and!.
  - intros Hlevel. specialize (Hefflevel Hlevel).
    split_and!; [done| | |].
    + rewrite !newLogger_unfold. rewrite Hefflevel.
      replace (effectiveLevelName c (cfg.mkLogger _ _ _))
        with (cfg.RootLevel root); [done|].
      unfold effectiveLevelName. simpl. by case_decide.
    + intros zl w' (lv&Hlv&_&_&_&_&Hg&_)%newLogger_Ret_obs.
      eexists R, _. split_and!; [done..|]. simpl.
      rewrite Hefflevel in Hlv. congruence.
    + intros Hne Hregd.
      destruct (Hbuild (level_value R)) as (zl&w'&Hnew&Hn&_&Happs&Hg);
        [by rewrite Hefflevel|done..|].
      by eexists zl, w', R, _.
  - intros Hrefs. specialize (Heffroot Hrefs).
    split_and!; [done|by rewrite Heffroot| | | |].
    + rewrite !newLogger_unfold. rewrite Heffroot.
      replace (effectiveRefs c (cfg.mkLogger _ _ _))
        with (rootAppenderRefs c); [done|].
      unfold effectiveRefs. simpl. case_decide as Hlen; [done|].
      by destruct (rootAppenderRefs c1).
    + intros zl w' (lv&_&_&_&Happs&_)%newLogger_Ret_obs.
      rewrite Happs, Heffroot. simpl. by rewrite Hroot.
    + intros Hne [lv Hlv].
      destruct (Hbuild lv) as (zl&w'&Hnew&Hn&Happs&Hsome&_); [done| | |].
      * rewrite Heffroot. by apply Hrootne.
      * intros r Hr. rewrite Heffroot in Hr. by apply Hall.
      * exists zl, w'. split_and!; try done.
        rewrite Happs, Heffroot. simpl. by rewrite Hroot.
    + intros Hnil.
      assert (Heffnil : effectiveRefs c lc = []).
      { rewrite Heffroot. apply MakeStringSet_empty_inv.
        simpl. by rewrite Hset, Hnil. }
      destruct (UnmarshalText (effectiveLevelName c lc)) as [lv|] eqn:Hlv.
      * exists ErrNoAppenders. split; [|done].
        apply newLogger_no_appenders; [by rewrite Hlv|done].
      * eexists. split; [by apply newLogger_invalid_level|].
        by intros [? ?].
  - intros Hrefs. specialize (Heffown Hrefs). split_and!; [done| |].
    + intros zl w' (lv&_&_&_&Happs&_)%newLogger_Ret_obs.
      by rewrite Happs, Heffown.
    + intros [lv Hlv] Hregd.
      destruct (Hbuild lv) as (zl&w'&Hnew&Hn&Happs&Hsome&_); [done| | |].
      * by rewrite Heffown.
      * intros r Hr. rewrite Heffown in Hr. by apply Hregd.
      * exists zl, w'. split_and!; try done. by rewrite Happs, Heffown.
  - intros Hlevel Hrefs Hne.
    specialize (Hefflevel Hlevel). specialize (Heffroot Hrefs).
    destruct (Hbuild (level_value R)) as (zl&w'&Hnew&Hn&Happs&Hsome&Hg).
    + by rewrite Hefflevel.
    + rewrite Heffroot. by apply Hrootne.
    + intros r Hr. rewrite Heffroot in Hr. by apply Hall.
    + eexists zl, w', R, _. split_and!; try done.
      rewrite Happs, Heffroot. simpl. by rewrite Hroot.
Qed.

Lemma resolved_size c (set : StringSet) :
  (∀ k, is_Some (set !! k) → is_Some (nameToAppender c !! k)) →
  size (resolved c set) = size set.
Proof.
  intros Hreg. rewrite <-!(size_dom (D := gset string)). f_equal.
  apply set_eq. intros k. rewrite !elem_of_dom. split.
  - intros [p Hp]. by apply resolved_lookup in Hp as [_ ?].
  - intros Hk. destruct (Hreg k Hk) as [p Hp]. exists p.
    by apply resolved_lookup.
Qed.


(** ** Start-up: which outcome *)

Lemma newLogger_not_Crash c lc w : registry_ok c → newLogger c lc w ≠ Crash.
Proof.
  intros Hok. rewrite newLogger_unfold.
  destruct (UnmarshalText _) as [lv|]; [|done].
  destruct (newLogger_resolve c (effectiveRefs c lc) (iter_seed w))
    as [(am&->&_&->)|(r&_&_&->)]; [|done].
  case_decide; [done|]. rewrite appendCores_Ret; [done|].
  rewrite map_range_perm. by apply resolved_is_Some.
Qed.

Lemma buildable_Ret c lc w :
  registry_ok c → buildable c lc → ∃ zl w', newLogger c lc w = Ret (zl, w').
Proof.
  intros Hok ([lv Hlv]&Hne&Hreg).
  destruct (newLogger_Ret c lc w) with (lv := lv) as (apps&_&->);
    [by apply resolved_is_Some|done..|by eexists _, _].
Qed.

Lemma newLogger_Ret_buildable c lc w zl w' :
  newLogger c lc w = Ret (zl, w') → buildable c lc.
Proof.
  intros (lv&apps&Hlv&Hne&Hreg&_)%newLogger_Ret_inv.
  split_and!; [by eexists|done..].
Qed.

Lemma buildable_set_nameToLogger m c lc :
  buildable (set_nameToLogger m c) lc ↔ buildable c lc.
Proof. done. Qed.

Lemma buildLoggers_not_Crash core lcs w :
  registry_ok core → buildLoggers core lcs w ≠ Crash.
Proof.
  revert core w. induction lcs as [|lc rest IH]; intros core w Hok; [done|].
  rewrite buildLoggers_cons.
  destruct (newLogger core lc w) as [[l w1]| |] eqn:Hnew; [|done|].
  - destruct (nameToLogger core !! cfg.Name lc); [done|]. by apply IH.
  - by apply newLogger_not_Crash in Hnew.
Qed.


(** The loop succeeds on declarations that can be built and have pairwise
    distinct names, none of them in the map yet. *)
Lemma buildLoggers_Ret core lcs w :
  registry_ok core →
  NoDup (cfg.Name <$> lcs) →
  (∀ lc, lc ∈ lcs → nameToLogger core !! cfg.Name lc = None) →
  (∀ lc, lc ∈ lcs → buildable core lc) →
  ∃ c w', buildLoggers core lcs w = Ret (c, w').
Proof.
  revert core w. induction lcs as [|lc rest IH];
    intros core w Hok Hnd Hfree Hbuild.
  { by eexists _, _. }
  rewrite buildLoggers_cons. rewrite fmap_cons in Hnd.
  apply NoDup_cons in Hnd as [Hlc Hnd].
  destruct (buildable_Ret core lc w Hok) as (zl&w1&->);
    [apply Hbuild; left|].
  rewrite Hfree by left. apply IH; try done.
  - intros lc' Hin. simpl. rewrite lookup_insert_ne; [apply Hfree; by right|].
    intros Heq. apply Hlc. rewrite Heq. apply list_elem_of_fmap. eauto.
  - intros lc' Hin. apply buildable_set_nameToLogger, Hbuild. by right.
Qed.

Lemma startup_not_Crash config w : startup config w ≠ Crash.
Proof.
  rewrite startup_unfold. unfold registered.
  destruct (registerGroups _ _) as [c0| |] eqn:Hreg; [|done|].
  - cbn zeta. destruct (UnmarshalText _) as [lv|]; [|done].
    destruct (newLogger_resolve c0
                (cfg.RootAppenderRefs (cfg.root (cfg.loggers config)))
                (S (iter_seed w)))
      as [(am&->&_&_)|(r&_&_&->)]; done.
  - by apply registerGroups_not_Crash in Hreg.
Qed.

(** [New] never panics. *)
Lemma New_not_Crash raw w : New raw w ≠ Crash.
Proof.
  unfold New. monad_simpl. destruct (Unpack raw) as [?|config]; [done|].
  monad_simpl.
  destruct (startup config w) as [[c1 wa]| |] eqn:Hs; [|done|].
  - apply buildLoggers_not_Crash.
    by apply startup_Ret_inv in Hs as ((?&_)&_).
  - by apply startup_not_Crash in Hs.
Qed.

Lemma New_unfold raw config w :
  Unpack raw = inr config →
  New raw w =
  match startup config w with
  | Ret (c1, wa) => buildLoggers c1 (cfg.logger (cfg.loggers config)) wa
  | Fail e => Fail e
  | Crash => Crash
  end.
Proof. intros H. unfold New. rewrite H. by monad_simpl. Qed.


(** ** The run-time lookup *)

Lemma LoadOrStore_cases (m : gmap string ZapLogger) key value v loaded m' :
  LoadOrStore m key value = (v, loaded, m') →
  (m !! key = Some v ∧ loaded = true ∧ m' = m)
  ∨ (m !! key = None ∧ v = value ∧ loaded = false ∧ m' = <[key := value]> m).
Proof.
  unfold LoadOrStore. destruct (m !! key) as [actual|]; intros ?; simplify_eq;
    [by left|by right].
Qed.

Lemma LoadOrStore_lookup (m : gmap string ZapLogger) key value v loaded m' :
  LoadOrStore m key value = (v, loaded, m') →
  m' !! key = Some v ∧ ∀ k zl, m !! k = Some zl → m' !! k = Some zl.
Proof.
  intros [(Hm&_&->)|(Hm&->&_&->)]%LoadOrStore_cases; [done|].
  split; [apply lookup_insert_eq|]. intros k zl Hk.
  rewrite lookup_insert_ne; [done|congruence].
Qed.

(** A step never changes or removes a handle that is stored. *)
Lemma step_mono s s' :
  step s s' →
  ∀ k zl, nameToLogger (sys_core s) !! k = Some zl →
          nameToLogger (sys_core s') !! k = Some zl.
Proof.
  destruct 1 as [| | | | |c w calls stores i name zl v loaded m _ Hstore];
    simpl; try done.
  by apply LoadOrStore_lookup in Hstore as [_ ?].
Qed.

Lemma rtc_step_mono s s' :
  rtc step s s' →
  ∀ k zl, nameToLogger (sys_core s) !! k = Some zl →
          nameToLogger (sys_core s') !! k = Some zl.
Proof.
  induction 1 as [|s1 s2 s3 H12 _ IH]; [done|].
  intros k zl Hk. by eapply IH, step_mono.
Qed.

Lemma run_inv_init c0 w : run_inv c0 (mkSystem c0 w [] []).
Proof.
  split_and!; simpl; try done.
  - by destruct c0.
  - constructor.
  - by intros name zl ?%elem_of_nil.
Qed.

Lemma run_inv_step c0 s s' : run_inv c0 s → step s s' → run_inv c0 s'.
Proof.
  intros (Hcore&Hkeep&Hret&Hnd&Hlog) Hstep.
  destruct Hstep as
    [c w calls stores name
    |c w calls stores i name logger Hi Hhit
    |c w calls stores i name Hi Hmiss
    |c w calls stores i name zl w' Hi Hbuild
    |c w calls stores i name Hi Hbuild
    |c w calls stores i name zl v loaded m Hi Hstore]; simpl in *.
  - split_and!; simpl; try done. intros i name' v Hi.
    apply lookup_app_Some in Hi as [Hi|[_ Hi]]; [by eapply Hret|].
    by apply list_elem_of_lookup_2, list_elem_of_singleton in Hi.
  - split_and!; simpl; try done. intros j name' v Hj.
    apply list_lookup_insert_Some in Hj as [(_&?&_)|[_ Hj]];
      [by simplify_eq|by eapply Hret].
  - split_and!; simpl; try done. intros j name' v Hj.
    apply list_lookup_insert_Some in Hj as [(_&?&_)|[_ Hj]];
      [done|by eapply Hret].
  - split_and!; simpl; try done. intros j name' v Hj.
    apply list_lookup_insert_Some in Hj as [(_&?&_)|[_ Hj]];
      [done|by eapply Hret].
  - split_and!; simpl; try done. intros j name' v Hj.
    apply list_lookup_insert_Some in Hj as [(_&?&_)|[_ Hj]];
      [done|by eapply Hret].
  - apply LoadOrStore_lookup in Hstore as Hlk. destruct Hlk as [Hv Hmono].
    assert (Hret' : ∀ j name' v',
      <[i := Returned name v]> calls !! j = Some (Returned name' v') →
      m !! name' = Some v').
    { intros j name' v' Hj.
      apply list_lookup_insert_Some in Hj as [(_&?&_)|[_ Hj]];
        [by simplify_eq|]. by eapply Hmono, Hret. }
    apply LoadOrStore_cases in Hstore as [(Hm&->&->)|(Hm&->&->&->)].
    + split_and!; simpl; try done. rewrite Hcore. by destruct c0.
    + split_and!; simpl; try done.
      * rewrite Hcore. by destruct c0.
      * intros k zl' Hk. by eapply Hmono, Hkeep.
      * rewrite fmap_app. apply NoDup_app. split_and!; [done| |].
        -- intros k Hk Hk'. apply list_elem_of_fmap in Hk as (kz&->&Hin).
           destruct kz as [k' z]. simpl in Hk'.
           apply list_elem_of_singleton in Hk'. subst k'.
           destruct (Hlog _ _ Hin) as [_ ?]. simpl in *. congruence.
        -- apply NoDup_singleton.
      * intros name' zl' [Hin|Heq%list_elem_of_singleton]%elem_of_app.
        -- destruct (Hlog _ _ Hin) as [Hfree Hnow]. split; [done|].
           by apply Hmono.
        -- injection Heq as -> ->. split; [|done].
           destruct (nameToLogger c0 !! name) as [old|] eqn:Hold; [|done].
           apply Hkeep in Hold. simpl in *. congruence.
Qed.

Lemma run_inv_rtc c0 s s' : run_inv c0 s → rtc step s s' → run_inv c0 s'.
Proof.
  intros Hinv Hrun. induction Hrun as [|s1 s2 s3 H12 _ IH]; [done|].
  by eapply IH, run_inv_step.
Qed.

(** [GetLogger], case by case. *)
Lemma GetLogger_unfold c name w :
  GetLogger c name w =
  match nameToLogger c !! name with
  | Some logger => Ret (logger, c, w)
  | None =>
    match newNamedLogger c name w with
    | Ret (zl, w') =>
      Ret (zl, set_nameToLogger (<[name := zl]> (nameToLogger c)) c, w')
    | Fail e => Fail e
    | Crash => Crash
    end
  end.
Proof.
  unfold GetLogger. destruct (nameToLogger c !! name) as [l|] eqn:Hl; [done|].
  monad_simpl. destruct (newNamedLogger c name w) as [[zl w']| |]; [|done..].
  unfold LoadOrStore. by rewrite Hl.
Qed.

(** A call of [GetLogger] is a run of the three steps with no other call
    in between. *)
Lemma GetLogger_run c name w calls stores zl c' w' :
  GetLogger c name w = Ret (zl, c', w') →
  ∃ stores',
    rtc step (mkSystem c w calls stores)
             (mkSystem c' w' (calls ++ [Returned name zl]) stores').
Proof.
  rewrite GetLogger_unfold. intros H.
  assert (Hlast : ∀ cl : call, (calls ++ [cl]) !! length calls = Some cl).
  { intros cl. by rewrite lookup_app_r, Nat.sub_diag by lia. }
  assert (Hset : ∀ cl cl' : call,
            <[length calls := cl']> (calls ++ [cl]) = calls ++ [cl']).
  { intros cl cl'. rewrite insert_app_r_alt, Nat.sub_diag by lia. done. }
  destruct (nameToLogger c !! name) as [l|] eqn:Hl.
  - simplify_eq. exists stores.
    eapply rtc_l; [apply step_call with (name := name)|].
    eapply rtc_l; [by eapply step_load_hit|]. by rewrite Hset.
  - destruct (newNamedLogger c name w) as [[zl' w1]| |] eqn:Hnew; [|done..].
    simplify_eq. exists (stores ++ [(name, zl)]).
    eapply rtc_l; [apply step_call with (name := name)|].
    eapply rtc_l; [by eapply step_load_miss|]. rewrite Hset.
    eapply rtc_l; [by eapply step_build|]. rewrite Hset.
    eapply rtc_l.
    { eapply step_store with (loaded := false); [apply Hlast|].
      unfold LoadOrStore. by rewrite Hl. }
    rewrite Hset. done.
Qed.

(** A schedule that can be executed is a run. *)
Lemma advance_step s i s' : advance s i = Some s' → step s s'.
Proof.
  destruct s as [c w calls stores]. unfold advance. simpl.
  destruct (calls !! i) as [[name|name|name zl|name v|name]|] eqn:Hi;
    [| | |done..].
  - destruct (nameToLogger c !! name) as [logger|] eqn:Hl;
      intros [= <-]; [by eapply step_load_hit|by eapply step_load_miss].
  - destruct (newNamedLogger c name w) as [[zl w']|e|] eqn:Hnew;
      [|done|]; intros [= <-];
      [by eapply step_build|by eapply step_build_panic].
  - destruct (LoadOrStore (nameToLogger c) name zl) as [[v loaded] m] eqn:Hs.
    intros [= <-]. by eapply step_store.
Qed.

Lemma exec_rtc schedule s s' : exec s schedule = Some s' → rtc step s s'.
Proof.
  revert s. induction schedule as [|[name|i] rest IH]; intros s H.
  - simpl in H. by simplify_eq.
  - simpl in H. eapply rtc_l; [|by apply IH]. destruct s. apply step_call.
  - simpl in H. destruct (advance s i) as [s1|] eqn:Hadv; [|done].
    eapply rtc_l; [by eapply advance_step|by apply IH].
Qed.

(** C1.  Along every run of calls of [GetLogger] on a registry, whatever
    the interleaving of their steps: a handle that is stored stays the
    handle of its name for ever; every call that has returned holds the
    handle stored under its name, so that two calls for one name return
    the same handle, address included; [LoadOrStore] stores at most once
    for a name, and never for a name that had a handle at the start; and a
    further call of [GetLogger] for a name returns the handle the earlier
    calls returned, and is itself a run of those steps. *)
Theorem GetLogger_identity_stable c0 w0 s :
  rtc step (mkSystem c0 w0 [] []) s →
  (∀ k zl, nameToLogger c0 !! k = Some zl →
           nameToLogger (sys_core s) !! k = Some zl)
  ∧ (∀ s', rtc step s s' →
       ∀ k zl, nameToLogger (sys_core s) !! k = Some zl →
               nameToLogger (sys_core s') !! k = Some zl)
  ∧ (∀ i name v, sys_calls s !! i = Some (Returned name v) →
                 nameToLogger (sys_core s) !! name = Some v)
  ∧ (∀ i j name v v',
       sys_calls s !! i = Some (Returned name v) →
       sys_calls s !! j = Some (Returned name v') → v = v')
  ∧ NoDup (sys_stores s).*1
  ∧ (∀ name zl, (name, zl) ∈ sys_stores s →
       nameToLogger c0 !! name = None
       ∧ nameToLogger (sys_core s) !! name = Some zl)
  ∧ (∀ name w zl c' w',
       GetLogger (sys_core s) name w = Ret (zl, c', w') →
       nameToLogger c' !! name = Some zl
       ∧ (∀ i v, sys_calls s !! i = Some (Returned name v) → zl = v)
       ∧ (∀ w2, GetLogger c' name w2 = Ret (zl, c', w2))
       ∧ ∃ stores',
           rtc step (mkSystem (sys_core s) w (sys_calls s) (sys_stores s))
             (mkSystem c' w' (sys_calls s ++ [Returned name zl]) stores')).
Proof.
  intros Hrun.
  destruct (run_inv_rtc c0 _ _ (run_inv_init c0 w0) Hrun)
    as (Hcore&Hkeep&Hret&Hnd&Hlog).
  split_and!; try done.
  - intros s'. apply rtc_step_mono.
  - intros i j name v v' Hi Hj. apply Hret in Hi, Hj. congruence.
  - intros name w zl c' w' Hget. split_and!.
    + rewrite GetLogger_unfold in Hget.
      destruct (nameToLogger (sys_core s) !! name) as [l|] eqn:Hl.
      * by simplify_eq.
      * destruct (newNamedLogger _ name w) as [[zl' w1]| |]; [|done..].
        simplify_eq. simpl. apply lookup_insert_eq.
    + intros i v Hi. apply Hret in Hi.
      rewrite GetLogger_unfold, Hi in Hget. by simplify_eq.
    + intros w2. rewrite GetLogger_unfold in Hget.
      destruct (nameToLogger (sys_core s) !! name) as [l|] eqn:Hl.
      * simplify_eq. by rewrite GetLogger_unfold, Hl.
      * destruct (newNamedLogger _ name w) as [[zl' w1]| |]; [|done..].
        simplify_eq. rewrite GetLogger_unfold. simpl.
        by rewrite lookup_insert_eq.
    + by apply GetLogger_run.
Qed.

(** [newNamedLogger], step by step. *)
Lemma newNamedLogger_unfold c name w :
  newNamedLogger c name w =
  match appendCores (rootLevel c)
          (map_range (iter_seed w) _ (rootAppenders c)).*2 with
  | Ret zcs =>
    Ret (mkZapLogger (next_addr w) (mkSugared name (NewTee zcs)),
         mkWorld (S (next_addr w)) (S (iter_seed w)))
  | Fail e => Fail e
  | Crash => Crash
  end.
Proof.
  unfold newNamedLogger, range, NewZapLogger. monad_simpl.
  destruct (appendCores _ _) as [zcs| |]; [|done..].
  by rewrite Named_zapNew.
Qed.

Lemma newNamedLogger_not_Fail c name w e : newNamedLogger c name w ≠ Fail e.
Proof.
  rewrite newNamedLogger_unfold.
  destruct (appendCores _ _) as [zcs|e'|] eqn:H; [done| |done].
  by apply appendCores_not_Fail in H.
Qed.

(** Over a registry whose root appenders are not nil, [newNamedLogger]
    returns a handle with one core per root appender, gated by the root
    level. *)
Lemma newNamedLogger_Ret c name w :
  Forall is_Some (map_to_list (rootAppenders c)).*2 →
  ∃ apps,
    apps ≡ₚ appendersIn (rootAppenders c)
    ∧ newNamedLogger c name w
      = Ret (mkZapLogger (next_addr w)
               (mkSugared name (NewTee (coreOf (rootLevel c) <$> apps))),
             mkWorld (S (next_addr w)) (S (iter_seed w))).
Proof.
  intros Hok. rewrite newNamedLogger_unfold, appendCores_Ret.
  - eexists. split; [|done]. unfold appendersIn. by rewrite map_range_perm.
  - by rewrite map_range_perm.
Qed.

Lemma root_ok_appenders c :
  root_ok c → Forall is_Some (map_to_list (rootAppenders c)).*2.
Proof. intros (Hreg&_&->&_). by apply resolved_is_Some. Qed.

Lemma newNamedLogger_obs c name w :
  root_ok c →
  ∃ zl w',
    newNamedLogger c name w = Ret (zl, w')
    ∧ logger_name zl = name
    ∧ logger_addr zl = next_addr w
    ∧ usable zl
    ∧ appendersOf zl ≡ₚ appendersIn (rootAppenders c)
    ∧ gatesOf zl = replicate (length (appendersOf zl)) (rootLevel c)
    ∧ length (fanout (logger_core zl)) = length (appendersOf zl).
Proof.
  intros Hok.
  destruct (newNamedLogger_Ret c name w (root_ok_appenders c Hok))
    as (apps&Hperm&->).
  destruct (built_handle_obs (next_addr w) name (rootLevel c) apps)
    as (Hn&Ha&Happs&Hg&Hlen&Hus).
  eexists _, _. split; [done|]. rewrite Happs. split_and!; try done.
  apply Hus. by destruct Hok as (_&(L&->&_)&_).
Qed.

Lemma New_handles_ok raw w0 c w1 :
  New raw w0 = Ret (c, w1) → handles_ok c.
Proof.
  intros (config&c1&wa&_&Hs&Hb)%New_Ret_inv.
  apply startup_Ret_inv in Hs as (_&_&Hempty&_).
  apply buildLoggers_Ret_inv in Hb as (_&_&_&_&_&Horigin&_).
  intros k zl Hk. destruct (Horigin k zl Hk) as [Hold|Hbuilt].
  { by rewrite Hempty, lookup_empty in Hold. }
  destruct Hbuilt as (lc&wb&wc&_&->&Hnew&_).
  by apply newLogger_Ret_obs in Hnew as (_&_&?&_&_&_&_&_&?&_).
Qed.

Lemma ok_step s s' :
  root_ok (sys_core s) → handles_ok (sys_core s) → calls_ok s →
  step s s' →
  root_ok (sys_core s') ∧ handles_ok (sys_core s') ∧ calls_ok s'.
Proof.
  intros Hroot Hhandles Hcalls Hstep.
  assert (Hupd : ∀ (calls : list call) i (cl : call),
    (∀ j cl', calls !! j = Some cl' → call_ok cl') →
    call_ok cl →
    ∀ j cl', <[i := cl]> calls !! j = Some cl' → call_ok cl').
  { intros calls i cl Hall Hcl j cl' Hj.
    apply list_lookup_insert_Some in Hj as [(_&<-&_)|[_ Hj]]; [done|].
    by eapply Hall. }
  destruct Hstep as
    [c w calls stores name
    |c w calls stores i name logger Hi Hhit
    |c w calls stores i name Hi Hmiss
    |c w calls stores i name zl w' Hi Hbuild
    |c w calls stores i name Hi Hbuild
    |c w calls stores i name zl v loaded m Hi Hstore];
    unfold calls_ok in *; simpl in *.
  - split_and!; try done. intros i cl Hi.
    apply lookup_app_Some in Hi as [Hi|[_ Hi]]; [by eapply Hcalls|].
    apply list_elem_of_lookup_2, list_elem_of_singleton in Hi. by subst cl.
  - split_and!; try done. apply Hupd; [done|]. by apply Hhandles.
  - split_and!; try done. by apply Hupd.
  - split_and!; try done. apply Hupd; [done|].
    destruct (newNamedLogger_obs c name w Hroot) as (zl'&w2&Hnew&?&_&?&_).
    rewrite Hnew in Hbuild. by simplify_eq.
  - destruct (newNamedLogger_obs c name w Hroot) as (zl'&w2&Hnew&_).
    congruence.
  - pose proof (Hcalls _ _ Hi) as Hbuilt. simpl in Hbuilt.
    apply LoadOrStore_cases in Hstore as [(Hm&->&->)|(Hm&->&->&->)].
    + split_and!; [done|by destruct c|].
      apply Hupd; [done|]. by apply Hhandles.
    + split_and!; [done| |by apply Hupd].
      intros k zl' Hk. simpl in Hk.
      destruct (decide (name = k)) as [->|Hne].
      * rewrite lookup_insert_eq in Hk. by simplify_eq.
      * rewrite lookup_insert_ne in Hk by done. by apply Hhandles.
Qed.

Lemma ok_rtc s s' :
  root_ok (sys_core s) → handles_ok (sys_core s) → calls_ok s →
  rtc step s s' →
  root_ok (sys_core s') ∧ handles_ok (sys_core s') ∧ calls_ok s'.
Proof.
  intros Hroot Hhandles Hcalls Hrun. induction Hrun as [|s1 s2 s3 H12 _ IH];
    [done|].
  destruct (ok_step s1 s2) as (?&?&?); try done. by apply IH.
Qed.

(** C2.  On a registry returned by [New], at any time of its life (after
    any run of calls of [GetLogger], in any world), [GetLogger] returns for
    every name: it neither panics nor gives an error.  The handle bears
    the name asked for and can be used; it is the stored one when the name
    has a handle, and otherwise one built from the root configuration, with
    one core per root appender gated by the root level, which is not nil.
    No call of a run panics, and each returned handle can be used. *)
Theorem GetLogger_total raw w0 c w1 w s :
  New raw w0 = Ret (c, w1) →
  rtc step (mkSystem c w [] []) s →
  (∀ name w2, ∃ zl c' w',
     GetLogger (sys_core s) name w2 = Ret (zl, c', w')
     ∧ logger_name zl = name
     ∧ usable zl
     ∧ nameToLogger c' !! name = Some zl
     ∧ (∀ old, nameToLogger (sys_core s) !! name = Some old →
               zl = old ∧ c' = sys_core s ∧ w' = w2)
     ∧ (nameToLogger (sys_core s) !! name = None →
          is_Some (rootLevel c)
          ∧ appendersOf zl ≡ₚ appendersIn (rootAppenders c)
          ∧ gatesOf zl = replicate (length (appendersOf zl)) (rootLevel c)
          ∧ c' = set_nameToLogger
                   (<[name := zl]> (nameToLogger (sys_core s))) (sys_core s)))
  ∧ (∀ name w2 e, GetLogger (sys_core s) name w2 ≠ Fail e)
  ∧ (∀ name w2, GetLogger (sys_core s) name w2 ≠ Crash)
  ∧ (∀ i name, sys_calls s !! i ≠ Some (Panicked name))
  ∧ (∀ i name v, sys_calls s !! i = Some (Returned name v) →
                 logger_name v = name ∧ usable v).
Proof.
  intros HNew Hrun.
  destruct (ok_rtc (mkSystem c w [] []) s) as (Hroot&Hhandles&Hcalls);
    [by eapply New_root_ok|by eapply New_handles_ok| |done|].
  { intros i cl Hi. simpl in Hi. by rewrite lookup_nil in Hi. }
  destruct (run_inv_rtc c _ _ (run_inv_init c w) Hrun) as (Hcore&_).
  assert (Hget : ∀ name w2, ∃ zl c' w',
     GetLogger (sys_core s) name w2 = Ret (zl, c', w')
     ∧ logger_name zl = name
     ∧ usable zl
     ∧ nameToLogger c' !! name = Some zl
     ∧ (∀ old, nameToLogger (sys_core s) !! name = Some old →
               zl = old ∧ c' = sys_core s ∧ w' = w2)
     ∧ (nameToLogger (sys_core s) !! name = None →
          is_Some (rootLevel c)
          ∧ appendersOf zl ≡ₚ appendersIn (rootAppenders c)
          ∧ gatesOf zl = replicate (length (appendersOf zl)) (rootLevel c)
          ∧ c' = set_nameToLogger
                   (<[name := zl]> (nameToLogger (sys_core s))) (sys_core s))).
  { intros name w2. rewrite GetLogger_unfold.
    destruct (nameToLogger (sys_core s) !! name) as [l|] eqn:Hl.
    - destruct (Hhandles _ _ Hl) as [Hn Hus].
      exists l, (sys_core s), w2. split_and!; try done.
      intros old [= <-]. done.
    - destruct (newNamedLogger_obs (sys_core s) name w2 Hroot)
        as (zl&w'&->&Hn&_&Hus&Happs&Hgates&_).
      eexists _, _, _. split; [done|]. split_and!; try done.
      + simpl. apply lookup_insert_eq.
      + intros _. rewrite Hcore in Happs, Hgates. simpl in *.
        split_and!; try done. destruct Hroot as (_&(L&HL&_)&_).
        rewrite Hcore in HL. simpl in HL. by eexists. }
  split_and!; try done.
  - intros name w2 e. by destruct (Hget name w2) as (?&?&?&->&_).
  - intros name w2. by destruct (Hget name w2) as (?&?&?&->&_).
  - intros i name Hi. by apply Hcalls in Hi.
  - intros i name v Hi. by apply Hcalls in Hi.
Qed.

(** ** Start-up: which error *)


(** C6, as amended.  A declaration whose effective references resolve to
    no appender at all gets no handle from [newLogger]: the call fails,
    with the error "empty appenders" if the effective level name parses,
    and with the error of the level otherwise (the level is created
    first). *)
Theorem no_appenders_no_handle c (lc : cfg.Logger) w :
  (∀ r, r ∈ effectiveRefs c lc → is_Some (nameToAppender c !! r)) →
  resolved c (MakeStringSet (effectiveRefs c lc)) = ∅ →
  (∀ zl w', newLogger c lc w ≠ Ret (zl, w'))
  ∧ (is_Some (UnmarshalText (effectiveLevelName c lc)) →
     newLogger c lc w = Fail ErrNoAppenders)
  ∧ (UnmarshalText (effectiveLevelName c lc) = None →
     newLogger c lc w = Fail (ErrInvalidLevel (effectiveLevelName c lc))).
Proof.
  intros Hreg Hnone.
  assert (Hnil : effectiveRefs c lc = []).
  { apply MakeStringSet_empty_inv. apply (resolved_empty_iff c); [|done].
    intros k Hk. by apply Hreg, MakeStringSet_lookup. }
  assert (Hpos : is_Some (UnmarshalText (effectiveLevelName c lc)) →
                 newLogger c lc w = Fail ErrNoAppenders).
  { intros Hlv. by apply newLogger_no_appenders. }
  split_and!; [|done|apply newLogger_invalid_level].
  intros zl w' H.
  destruct (UnmarshalText (effectiveLevelName c lc)) as [lv|] eqn:Hlv.
  - rewrite Hpos in H; [done|by eexists].
  - rewrite newLogger_invalid_level in H; done.
Qed.


(** ** Levels and their identity *)


(** ** A root without appenders *)

(** C10, as amended.  The check for "empty appenders" is made for the
    declared loggers only.  When the configuration decodes, its appenders
    register, the root level name parses, the root has no appender
    reference, and the declared loggers have pairwise distinct names,
    effective level names that parse and references of their own, all
    registered, then [New] returns a registry, and [GetLogger] returns for
    every name that is not declared a handle over the no-op core, which
    writes to no appender. *)
Theorem empty_root_refs_accepted raw config w c0 :
  let root := cfg.root (cfg.loggers config) in
  let lcs := cfg.logger (cfg.loggers config) in
  Unpack raw = inr config →
  registered config (iter_seed w) = Ret c0 →
  is_Some (UnmarshalText (cfg.RootLevel root)) →
  cfg.RootAppenderRefs root = [] →
  NoDup (cfg.Name <$> lcs) →
  (∀ lc, lc ∈ lcs →
     is_Some (UnmarshalText (if decide (cfg.Level lc = "")
                             then cfg.RootLevel root else cfg.Level lc))
     ∧ cfg.AppenderRefs lc ≠ []
     ∧ ∀ r, r ∈ cfg.AppenderRefs lc → is_Some (nameToAppender c0 !! r)) →
  ∃ c w1,
    New raw w = Ret (c, w1)
    ∧ rootAppenders c = ∅
    ∧ rootAppenderRefs c = []
    ∧ ∀ name w2, name ∉ cfg.Name <$> lcs →
        ∃ zl c' w',
          GetLogger c name w2 = Ret (zl, c', w')
          ∧ logger_name zl = name
          ∧ logger_core zl = NopCore
          ∧ appendersOf zl = []
          ∧ usable zl.
Proof.
  intros root lcs Hraw Hreg [lv Hlv] Hrefs Hnd Hdecl.
  assert (Hnil : ∀ seed, map_range seed _ (∅ : StringSet) = []).
  { intros seed. by apply range_nil_iff. }
  assert (Hs : ∃ c1 wa, startup config w = Ret (c1, wa)
                 ∧ nameToAppender c1 = nameToAppender c0
                 ∧ rootAppenders c1 = ∅ ∧ rootAppenderRefs c1 = []
                 ∧ rootLevelName c1 = cfg.RootLevel root).
  { rewrite startup_unfold, Hreg. cbn zeta. fold root. rewrite Hlv, Hrefs.
    rewrite MakeStringSet_nil, !Hnil. simpl. by eexists _, _. }
  destruct Hs as (c1&wa&Hs&Happ&Hroots&Hrootrefs&Hrootname).
  apply startup_Ret_inv in Hs as Hinv.
  destruct Hinv as ((Hok&_)&_&Hempty&_).
  destruct (buildLoggers_Ret c1 lcs wa) as (c&w1&Hb); try done.
  { intros lc _. by rewrite Hempty, lookup_empty. }
  { intros lc Hin. destruct (Hdecl lc Hin) as (Hparse&Hne&Hregd).
    assert (Heff : effectiveRefs c1 lc = cfg.AppenderRefs lc).
    { unfold effectiveRefs. rewrite decide_False; [done|].
      by destruct (cfg.AppenderRefs lc). }
    split_and!.
    - unfold effectiveLevelName. by rewrite Hrootname.
    - by rewrite Heff.
    - intros r Hr. rewrite Happ. apply Hregd. by rewrite <-Heff. }
  exists c, w1. rewrite (New_unfold _ _ _ Hraw), Hs.
  apply buildLoggers_Ret_inv in Hb as Hinv.
  destruct Hinv as (Hc&_&_&_&_&Horigin&_).
  split_and!; [done|by rewrite Hc|by rewrite Hc|].
  intros name w2 Hname.
  assert (Hfree : nameToLogger c !! name = None).
  { destruct (nameToLogger c !! name) as [zl|] eqn:Hzl; [|done].
    destruct (Horigin name zl Hzl) as [Hold|(lc&_&_&Hin&->&_)].
    - by rewrite Hempty, lookup_empty in Hold.
    - destruct Hname. apply list_elem_of_fmap. eauto. }
  rewrite GetLogger_unfold, Hfree, newNamedLogger_unfold.
  assert (rootAppenders c = ∅) as -> by by rewrite Hc.
  assert (map_range (iter_seed w2) _ (∅ : gmap string (ptr Appender)) = [])
    as -> by by apply range_nil_iff.
  simpl. eexists _, _, _. split; [done|]. split_and!; try done.
  unfold usable. simpl. constructor.
Qed.
End factory.

(** * Examples

    The theorems above at the configurations of the examples, and the
    inputs at which the statements that had to be amended fail. *)


(** Two racing calls for "other" return one handle, stored once. *)
Lemma GetLogger_identity_stable_witness :
  rtc (@step _ _ sample) (mkSystem builtA.1 builtA.2 [] []) raced
  ∧ (∀ v v', sys_calls raced !! 0 = Some (Returned "other" v) →
             sys_calls raced !! 1 = Some (Returned "other" v') → v = v')
  ∧ NoDup (sys_stores raced).*1.
Proof.
  assert (Hrun : rtc (@step _ _ sample)
                   (mkSystem builtA.1 builtA.2 [] []) raced).
  { apply (exec_rtc race). vm_compute. reflexivity. }
  destruct (GetLogger_identity_stable (Externals0 := sample) _ _ _ Hrun)
    as (_&_&_&Hsame&Hnd&_).
  split; [exact Hrun|]. split; [|exact Hnd].
  intros v v'. apply Hsame.
Defined.

(** After the race, [GetLogger] still returns for a name never asked. *)
Lemma GetLogger_total_witness :
  @New _ _ sample (Some (configOf rootA [svc; db])) world0
  = Ret (builtA.1, builtA.2)
  ∧ ∃ zl c' w',
      @GetLogger _ _ sample (sys_core raced) "fresh" world0 = Ret (zl, c', w')
      ∧ logger_name zl = "fresh" ∧ usable zl.
Proof.
  assert (HNew : @New _ _ sample (Some (configOf rootA [svc; db])) world0
                 = Ret (builtA.1, builtA.2)).
  { vm_compute. reflexivity. }
  assert (Hrun : rtc (@step _ _ sample)
                   (mkSystem builtA.1 builtA.2 [] []) raced).
  { apply (exec_rtc race). vm_compute. reflexivity. }
  split; [exact HNew|].
  destruct (GetLogger_total (Externals0 := sample) _ _ _ _ _ _ HNew Hrun)
    as (Hget&_).
  destruct (Hget "fresh" world0) as (zl&c'&w'&H&Hn&Hu&_).
  exists zl, c', w'. split; [exact H|]. split; [exact Hn|exact Hu].
Defined.

(** The logger "db" declares neither a level nor a reference: it is
    built, at the severity of the root and over the root's appender "A". *)
Lemma newLogger_root_fallback_witness :
  @startup _ _ sample (configOf rootA [svc; db]) world0
  = Ret (startedA.1, startedA.2)
  ∧ effectiveLevelName (set_nameToLogger ∅ startedA.1) db = "info"
  ∧ MakeStringSet (effectiveRefs (set_nameToLogger ∅ startedA.1) db)
    = MakeStringSet ["A"; "A"]
  ∧ ∃ zl w' R L,
      @newLogger _ _ sample (set_nameToLogger ∅ startedA.1) db startedA.2
      = Ret (zl, w')
      ∧ logger_name zl = "db"
      ∧ rootLevel startedA.1 = Some R
      ∧ gatesOf zl = replicate (length (appendersOf zl)) (Some L)
      ∧ level_value L = level_value R
      ∧ appendersOf zl ≡ₚ appendersIn (rootAppenders startedA.1)
      ∧ appendersOf zl ≠ [].
Proof.
  assert (Hs : @startup _ _ sample (configOf rootA [svc; db]) world0
               = Ret (startedA.1, startedA.2)).
  { vm_compute. reflexivity. }
  destruct (newLogger_root_fallback (Externals0 := sample)
              _ _ _ _ ∅ db startedA.2 Hs) as (Hlevel&Hrefs&_&Hboth).
  split; [exact Hs|]. split; [exact (proj1 (Hlevel eq_refl))|].
  split; [exact (proj1 (proj2 (Hrefs eq_refl)))|].
  apply Hboth; [reflexivity|reflexivity|discriminate].
Defined.


(** The logger "idle" has no reference and the root has none either. *)
Lemma no_appenders_no_handle_witness :
  @newLogger _ _ sample startedNone.1 idle startedNone.2
  = Fail ErrNoAppenders.
Proof.
  destruct (no_appenders_no_handle (Externals0 := sample)
              startedNone.1 idle startedNone.2) as (_&Hno&_).
  - intros r Hr. change (r ∈ []) in Hr. by apply elem_of_nil in Hr.
  - vm_compute. reflexivity.
  - apply Hno. vm_compute. eexists. reflexivity.
Defined.




(** A root without references, and the logger "svc" with its own. *)
Lemma empty_root_refs_accepted_witness :
  ∃ c w1,
    @New _ _ sample (Some (configOf rootNone [svc])) world0 = Ret (c, w1)
    ∧ rootAppenders c = ∅.
Proof.
  destruct (empty_root_refs_accepted (Externals0 := sample)
              (Some (configOf rootNone [svc])) (configOf rootNone [svc])
              world0 registeredAB) as (c&w1&HNew&Hroot&_).
  - reflexivity.
  - vm_compute. reflexivity.
  - vm_compute. eexists. reflexivity.
  - reflexivity.
  - vm_compute. repeat constructor; rewrite ?elem_of_nil; tauto.
  - intros lc Hlc. simpl in Hlc. apply list_elem_of_singleton in Hlc.
    subst lc. split; [vm_compute; eexists; reflexivity|].
    split; [discriminate|]. intros r Hr. simpl in Hr.
    rewrite !elem_of_cons, elem_of_nil in Hr.
    destruct Hr as [->|[->|[->|[]]]]; vm_compute; eexists; reflexivity.
  - exists c, w1. split; [exact HNew|exact Hroot].
Defined.

(** ** Where the statements had to be amended *)

(** C4 as first stated fails: with an empty name and no appender the error
    is the one of the name, not "appender should not be nil"; with a name
    that is registered and no appender the error is "appender should not be
    nil", not "duplicated appender name". *)
Lemma putAppender_first_check_wins :
  putAppender startedA.1 "" None = (startedA.1, Some ErrEmptyName)
  ∧ putAppender startedA.1 "" None ≠ (startedA.1, Some ErrNilAppender)
  ∧ is_Some (nameToAppender startedA.1 !! "A")
  ∧ putAppender startedA.1 "A" None = (startedA.1, Some ErrNilAppender)
  ∧ putAppender startedA.1 "A" None
    ≠ (startedA.1, Some (ErrDuplicateName "A")).
Proof.
  split_and!; [reflexivity|discriminate| |reflexivity|discriminate].
  vm_compute. eexists. reflexivity.
Qed.


(** C6 as first stated fails: "idle" has no reference, the root has none to
    fall back on, so that its references resolve to no appender; but its
    level name does not parse, and the error is the one of the level. *)
Lemma no_appenders_after_level :
  effectiveRefs startedNone.1 idleLoud = []
  ∧ resolved startedNone.1 (MakeStringSet (effectiveRefs startedNone.1 idleLoud))
    = ∅
  ∧ @newLogger _ _ sample startedNone.1 idleLoud startedNone.2
    = Fail (ErrInvalidLevel "loud")
  ∧ @newLogger _ _ sample startedNone.1 idleLoud startedNone.2
    ≠ Fail ErrNoAppenders.
Proof.
  split_and!; [reflexivity|vm_compute; reflexivity|vm_compute; reflexivity|].
  vm_compute. discriminate.
Qed.



(** C10 as first stated fails.  In each of these configurations the root
    has no reference and every declared logger has registered references
    of its own, and [New] fails: the root level name does not parse; two
    loggers have one name; the level name of a declared logger does not
    parse; two appender blocks have one name. *)
Lemma empty_root_refs_not_enough :
  cfg.RootAppenderRefs rootLoud = []
  ∧ @New _ _ sample (Some (configOf rootLoud [])) world0
    = Fail (ErrInvalidLevel "loud")
  ∧ cfg.RootAppenderRefs rootNone = []
  ∧ @New _ _ sample (Some (configOf rootNone [svc; svc])) world0
    = Fail (ErrDuplicateLogger "svc")
  ∧ @New _ _ sample (Some (configOf rootNone [svcLoud])) world0
    = Fail (ErrInvalidLevel "loud")
  ∧ @New _ _ sample (Some configTwice) world0
    = Fail (ErrDuplicateName "A").
Proof.
  split_and!; [reflexivity|vm_compute; reflexivity|reflexivity|
               vm_compute; reflexivity..].
Qed.

(** * More of the package

    Properties of the functions of core.go beyond the statements above. *)

Section coverage.
Context {RawConfig AppenderConfig : Type}.
Context `{!Externals RawConfig AppenderConfig}.

(** ** The appender registry *)

(** X1.  What [putAppender] stores, [getAppender] returns: after a call
    that is accepted, the name resolves to the appender given, which is not
    nil, where before it resolved to nothing; every other name resolves as
    before; and a second registration under that name is refused as a
    duplicate, whatever the appender.  After a call that is refused, every
    name resolves as before. *)
Theorem putAppender_getAppender (c : Core) name (a : ptr Appender) c' r :
  putAppender c name a = (c', r) →
  (r = None →
     getAppender c name = Fail (ErrNotFound name)
     ∧ getAppender c' name = Ret a
     ∧ is_Some a
     ∧ (∀ k, k ≠ name → getAppender c' k = getAppender c k)
     ∧ (∀ b : Appender, putAppender c' name (Some b)
                        = (c', Some (ErrDuplicateName name))))
  ∧ (is_Some r → ∀ k, getAppender c' k = getAppender c k).
Proof.
  intros H. apply putAppender_inv in H
    as [(->&_&->)|[(->&_&_&->)|[(->&_&_&_&->)|(->&Hn&Ha&Hfree&->)]]];
    (split; [|try done]); try discriminate.
  - intros _. unfold getAppender. simpl. rewrite Hfree, lookup_insert_eq.
    split_and!; try done.
    + intros k Hk. by rewrite lookup_insert_ne.
    + intros b. unfold putAppender. simpl.
      by rewrite decide_False, lookup_insert_eq.
Qed.

(** ** Levels *)

Lemma buildLoggers_levels core lcs w c w' :
  buildLoggers core lcs w = Ret (c, w') →
  (∀ k zl L, nameToLogger core !! k = Some zl → Some L ∈ gatesOf zl →
             level_addr L < next_addr w) →
  (∀ k k' zl zl' L L', nameToLogger core !! k = Some zl →
     nameToLogger core !! k' = Some zl' →
     Some L ∈ gatesOf zl → Some L' ∈ gatesOf zl' →
     level_addr L = level_addr L' → k = k') →
  (∀ k zl L, nameToLogger c !! k = Some zl → Some L ∈ gatesOf zl →
             level_addr L < next_addr w')
  ∧ (∀ k k' zl zl' L L', nameToLogger c !! k = Some zl →
       nameToLogger c !! k' = Some zl' →
       Some L ∈ gatesOf zl → Some L' ∈ gatesOf zl' →
       level_addr L = level_addr L' → k = k').
Proof.
  revert core w. induction lcs as [|lc rest IH]; intros core w H Hlt Hinj.
  { simpl in H. monad_simpl. by simplify_eq. }
  rewrite buildLoggers_cons in H.
  destruct (newLogger core lc w) as [[l w1]| |] eqn:Hnew; [|done..].
  destruct (nameToLogger core !! cfg.Name lc) eqn:Hfree; [done|].
  apply newLogger_Ret_obs in Hnew as (lv&_&_&_&_&_&Hg&_&_&Hw1).
  assert (Hnewgate : ∀ L, Some L ∈ gatesOf l → level_addr L = next_addr w).
  { intros L HL. rewrite Hg in HL.
    apply elem_of_replicate in HL as [HL _]. by simplify_eq. }
  apply IH in H; [done| |]; simpl.
  - intros k zl L Hk HL.
    apply lookup_insert_Some in Hk as [[_ <-]|[_ Hk]].
    + apply Hnewgate in HL. lia.
    + specialize (Hlt _ _ _ Hk HL). lia.
  - intros k k' zl zl' L L' Hk Hk' HL HL' Heq.
    apply lookup_insert_Some in Hk as [[<- <-]|[Hne Hk]];
      apply lookup_insert_Some in Hk' as [[<- <-]|[Hne' Hk']]; try done.
    + apply Hnewgate in HL. specialize (Hlt _ _ _ Hk' HL'). lia.
    + apply Hnewgate in HL'. specialize (Hlt _ _ _ Hk HL). lia.
    + by eapply Hinj.
Qed.

(** X2.  [New] creates one level for each declared logger.  In a registry
    it returns, all cores of the handle of a declaration are gated by one
    and the same level object, and the levels that gate the handles of two
    declarations with different names are different objects, also when
    the two declarations have the same level name. *)
Theorem declared_levels_distinct raw w0 c w1 :
  New raw w0 = Ret (c, w1) →
  (∀ k zl, nameToLogger c !! k = Some zl →
     ∃ L, gatesOf zl ≠ []
          ∧ ∀ g, g ∈ gatesOf zl → g = Some L)
  ∧ (∀ k k' zl zl' L L',
       nameToLogger c !! k = Some zl →
       nameToLogger c !! k' = Some zl' →
       k ≠ k' →
       Some L ∈ gatesOf zl → Some L' ∈ gatesOf zl' →
       level_addr L ≠ level_addr L' ∧ L ≠ L').
Proof.
  intros HNew.
  apply New_Ret_inv in HNew as (config&c1&wa&_&Hs&Hb).
  apply startup_Ret_inv in Hs as (_&_&Hempty&_).
  split.
  - apply buildLoggers_Ret_inv in Hb as (_&_&_&_&_&Horigin&_).
    intros k zl Hzl. destruct (Horigin k zl Hzl) as [Hold|Hbuilt].
    { by rewrite Hempty, lookup_empty in Hold. }
    destruct Hbuilt as (lc&wx&wy&_&_&Hnew&_).
    apply newLogger_Ret_obs in Hnew as (lv&_&_&_&_&Hne&Hg&_).
    exists (mkAtomicLevel (next_addr wx) lv). rewrite Hg. split.
    + destruct (appendersOf zl); [done|discriminate].
    + intros g Hin. by apply elem_of_replicate in Hin as [-> _].
  - apply buildLoggers_levels in Hb as [_ Hinj].
    + intros k k' zl zl' L L' Hk Hk' Hne HL HL'.
      assert (level_addr L ≠ level_addr L') as Haddr.
      { intros Heq. apply Hne. by eapply Hinj. }
      split; [done|congruence].
    + intros k zl L Hk. by rewrite Hempty, lookup_empty in Hk.
    + intros k k' zl zl' L L' Hk. by rewrite Hempty, lookup_empty in Hk.
Qed.

(** ** The logger factory *)

Lemma appendCores_Crash enab (l : list (ptr Appender)) :
  None ∈ l → appendCores enab l = Crash.
Proof.
  induction l as [|[a|] l IH]; intros Hin.
  - by apply elem_of_nil in Hin.
  - apply elem_of_cons in Hin as [?|Hin]; [done|]. simpl.
    by rewrite IH.
  - done.
Qed.

(** X3.  The outcome of [newLogger] does not depend on the world, that is
    on the order of the walks or on the allocator, except for the
    addresses and for the name of the missing appender.  With no nil
    appender in the registry: it fails on the level if the effective level
    name does not parse; otherwise on a reference that is not registered if
    there is one; otherwise on "empty appenders" if there is no effective
    reference; and otherwise it returns a handle.  So it returns a handle
    exactly when the effective level name parses and the effective
    references are not empty and all registered. *)
Theorem newLogger_outcome c (lc : cfg.Logger) w :
  registry_ok c →
  (UnmarshalText (effectiveLevelName c lc) = None →
     newLogger c lc w = Fail (ErrInvalidLevel (effectiveLevelName c lc)))
  ∧ (is_Some (UnmarshalText (effectiveLevelName c lc)) →
     (∃ r, r ∈ effectiveRefs c lc ∧ nameToAppender c !! r = None) →
     ∃ r, r ∈ effectiveRefs c lc ∧ nameToAppender c !! r = None
          ∧ newLogger c lc w = Fail (ErrNotFound r))
  ∧ (is_Some (UnmarshalText (effectiveLevelName c lc)) →
     effectiveRefs c lc = [] →
     newLogger c lc w = Fail ErrNoAppenders)
  ∧ ((∃ zl w', newLogger c lc w = Ret (zl, w'))
     ↔ is_Some (UnmarshalText (effectiveLevelName c lc))
       ∧ effectiveRefs c lc ≠ []
       ∧ ∀ r, r ∈ effectiveRefs c lc → is_Some (nameToAppender c !! r))
  ∧ newLogger c lc w ≠ Crash.
Proof.
  intros Hok. split_and!.
  - apply newLogger_invalid_level.
  - apply newLogger_not_found.
  - apply newLogger_no_appenders.
  - split.
    + intros (zl&w'&H). by apply newLogger_Ret_buildable in H.
    + intros Hb. by apply buildable_Ret.
  - by apply newLogger_not_Crash.
Qed.

(** X4.  Why [putAppender] refuses a nil appender: over a registry that
    holds a nil appender, [newLogger] panics on a declaration whose level
    parses and whose references are all registered, one of them to the nil
    appender; and [newNamedLogger], hence [GetLogger] for a name without a
    handle, panics when a root appender is nil. *)
Theorem nil_appender_panics c (lc : cfg.Logger) name r w :
  (is_Some (UnmarshalText (effectiveLevelName c lc)) →
   (∀ r', r' ∈ effectiveRefs c lc → is_Some (nameToAppender c !! r')) →
   r ∈ effectiveRefs c lc →
   nameToAppender c !! r = Some None →
   newLogger c lc w = Crash)
  ∧ (rootAppenders c !! r = Some None →
     newNamedLogger c name w = Crash
     ∧ (nameToLogger c !! name = None → GetLogger c name w = Crash)).
Proof.
  split.
  - intros [lv Hlv] Hreg Hr Hnil. rewrite newLogger_unfold, Hlv.
    destruct (newLogger_resolve c (effectiveRefs c lc) (iter_seed w))
      as [(am&->&_&->)|(r'&Hr'&Hnone&_)].
    2:{ destruct (Hreg r' Hr') as [? ?]. congruence. }
    assert (Hin : resolved c (MakeStringSet (effectiveRefs c lc)) !! r
                  = Some None).
    { apply resolved_lookup. split; [done|]. by apply MakeStringSet_lookup. }
    rewrite decide_False.
    2:{ intros Hsize%map_size_empty_iff.
        by rewrite Hsize, lookup_empty in Hin. }
    rewrite appendCores_Crash; [done|]. rewrite map_range_perm.
    apply list_elem_of_fmap. exists (r, None). split; [done|].
    by apply elem_of_map_to_list.
  - intros Hnil.
    assert (Hcrash : newNamedLogger c name w = Crash).
    { rewrite newNamedLogger_unfold, appendCores_Crash; [done|].
      rewrite map_range_perm. apply list_elem_of_fmap. exists (r, None).
      split; [done|]. by apply elem_of_map_to_list. }
    split; [done|]. intros Hfree.
    by rewrite GetLogger_unfold, Hfree, Hcrash.
Qed.

(** ** The run-time lookup *)


(** ** What [New] builds *)

Lemma registerConfigs_spec core appenderType blocks core' :
  registerConfigs core appenderType blocks = Ret core' →
  (∀ k p, nameToAppender core' !! k = Some p
     ↔ nameToAppender core !! k = Some p
       ∨ ∃ b, b ∈ blocks ∧ ConfigName b = inr k
              ∧ CreateAppender appenderType b = inr p)
  ∧ size (nameToAppender core')
    = size (nameToAppender core) + length blocks
  ∧ (nameToAppender core !! "" = None → nameToAppender core' !! "" = None).
Proof.
  revert core. induction blocks as [|b blocks IH]; intros core H.
  { simpl in H. simplify_eq. split_and!; [|simpl; lia|done].
    intros k p. split; [by left|].
    by intros [?|(b&?%elem_of_nil&_)]. }
  simpl in H.
  destruct (CreateAppender appenderType b) as [?|a] eqn:Ha; [done|].
  destruct (ConfigName b) as [?|name] eqn:Hname; [done|]. monad_simpl.
  destruct (putAppender core name a) as [core1 [e|]] eqn:Hput; [done|].
  apply putAppender_inv in Hput
    as [(?&_)|[(?&_)|[(?&_)|(_&Hne&Hsome&Hfree&->)]]]; try discriminate.
  apply IH in H as (Hiff&Hsize&Hempty). simpl in *. split_and!.
  - intros k p. rewrite Hiff, lookup_insert_Some. split.
    + intros [[[<- <-]|[_ ?]]|(b'&Hin&?&?)].
      * right. exists b. split_and!; [left|done..].
      * by left.
      * right. exists b'. split_and!; [by right|done..].
    + intros [Hk|(b'&Hin&Hn'&Ha')].
      * left. right. split; [congruence|done].
      * apply elem_of_cons in Hin as [->|Hin].
        -- left. left. split; congruence.
        -- right. by exists b'.
  - rewrite Hsize, map_size_insert_None by done. simpl. lia.
  - intros H0. apply Hempty. by rewrite lookup_insert_ne.
Qed.

Lemma registerGroups_spec core groups core' :
  registerGroups core groups = Ret core' →
  (∀ k p, nameToAppender core' !! k = Some p
     ↔ nameToAppender core !! k = Some p
       ∨ ∃ ty blocks b, (ty, blocks) ∈ groups ∧ b ∈ blocks
           ∧ ConfigName b = inr k ∧ CreateAppender ty b = inr p)
  ∧ size (nameToAppender core')
    = size (nameToAppender core) + length (blocksOf groups)
  ∧ (nameToAppender core !! "" = None → nameToAppender core' !! "" = None).
Proof.
  revert core. induction groups as [|[ty blocks] groups IH]; intros core H.
  { simpl in H. simplify_eq. split_and!; [|simpl; lia|done].
    intros k p. split; [by left|].
    by intros [?|(?&?&?&?%elem_of_nil&_)]. }
  simpl in H.
  destruct (registerConfigs core ty blocks) as [core1| |] eqn:H1; [|done..].
  monad_simpl. apply registerConfigs_spec in H1 as (Hiff1&Hsize1&Hempty1).
  apply IH in H as (Hiff&Hsize&Hempty). split_and!.
  - intros k p. rewrite Hiff, Hiff1. split.
    + intros [[?|(b&?&?&?)]|(ty'&blocks'&b&?&?&?&?)].
      * by left.
      * right. exists ty, blocks, b. split_and!; [left|done..].
      * right. exists ty', blocks', b. split_and!; [by right|done..].
    + intros [?|(ty'&blocks'&b&Hin&?&?&?)].
      * by left; left.
      * apply elem_of_cons in Hin as [[= -> ->]|Hin].
        -- left. right. by exists b.
        -- right. by exists ty', blocks', b.
  - rewrite Hsize, Hsize1.
    change (blocksOf ((ty, blocks) :: groups))
      with ((pair ty <$> blocks) ++ blocksOf groups).
    rewrite length_app, length_fmap. unfold blocksOf, mbind in *. lia.
  - tauto.
Qed.

Lemma New_Ret_registry raw config w c w1 :
  Unpack raw = inr config →
  New raw w = Ret (c, w1) →
  ∃ c0 c1 wa,
    registered config (iter_seed w) = Ret c0
    ∧ startup config w = Ret (c1, wa)
    ∧ buildLoggers c1 (cfg.logger (cfg.loggers config)) wa = Ret (c, w1)
    ∧ nameToAppender c = nameToAppender c0
    ∧ c = set_nameToLogger (nameToLogger c) c1.
Proof.
  intros Hraw (config'&c1&wa&Hraw'&Hs&Hb)%New_Ret_inv.
  assert (config' = config) as -> by congruence.
  apply startup_Ret_inv in Hs as Hinv.
  destruct Hinv as (_&(c0&Hreg&Happ)&_).
  apply buildLoggers_Ret_inv in Hb as Hinv. destruct Hinv as (Hc&_).
  exists c0, c1, wa. split_and!; try done. by rewrite Hc.
Qed.

(** X6.  The registry of a registry [New] returns is the configuration's
    appender blocks, no more and no less: a name resolves to an appender
    exactly when some block of the configuration bears the name and the
    appender factory made that appender from it; there are as many
    registered names as blocks, so that no two blocks share a name; the
    empty name is not registered; and no registered appender is nil. *)
Theorem New_registry raw config w c w1 :
  Unpack raw = inr config →
  New raw w = Ret (c, w1) →
  (∀ k p, nameToAppender c !! k = Some p
     ↔ ∃ ty blocks b,
         cfg.Appenders config !! ty = Some blocks ∧ b ∈ blocks
         ∧ ConfigName b = inr k ∧ CreateAppender ty b = inr p)
  ∧ size (nameToAppender c) = length (allBlocks config)
  ∧ nameToAppender c !! "" = None
  ∧ (∀ k p, nameToAppender c !! k = Some p → is_Some p).
Proof.
  intros Hraw HNew.
  destruct (New_Ret_registry _ _ _ _ _ Hraw HNew)
    as (c0&c1&wa&Hreg&Hs&_&Happ&_).
  apply startup_Ret_inv in Hs as ((Hok&_)&(c0'&Hreg'&Happ')&_).
  assert (c0' = c0) as -> by congruence.
  unfold registered in Hreg.
  apply registerGroups_spec in Hreg as (Hiff&Hsize&Hempty).
  rewrite Happ. split_and!.
  - intros k p. rewrite Hiff. unfold emptyCore. simpl. rewrite lookup_empty.
    split.
    + intros [?|(ty&blocks&b&Hin&?&?&?)]; [done|].
      exists ty, blocks, b. split_and!; try done.
      rewrite map_range_perm in Hin. by apply elem_of_map_to_list in Hin.
    + intros (ty&blocks&b&Hin&?&?&?). right.
      exists ty, blocks, b. split_and!; try done.
      rewrite map_range_perm. by apply elem_of_map_to_list.
  - rewrite Hsize. unfold emptyCore, allBlocks, blocksOf. simpl.
    rewrite map_size_empty. simpl. by rewrite map_range_perm.
  - by apply Hempty.
  - intros k p Hk. apply (Hok k). by rewrite Happ'.
Qed.

(** X7.  The root configuration of a registry [New] returns: the root
    level name is the one of the root block and the root level holds its
    severity; the root references are the names of the root block, each
    once; and the root appenders are the registered appenders of exactly
    those names, one for each. *)
Theorem New_root raw config w c w1 :
  Unpack raw = inr config →
  New raw w = Ret (c, w1) →
  let root := cfg.root (cfg.loggers config) in
  rootLevelName c = cfg.RootLevel root
  ∧ (∃ L, rootLevel c = Some L
          ∧ UnmarshalText (cfg.RootLevel root) = Some (level_value L))
  ∧ NoDup (rootAppenderRefs c)
  ∧ (∀ r, r ∈ rootAppenderRefs c ↔ r ∈ cfg.RootAppenderRefs root)
  ∧ (∀ k p, rootAppenders c !! k = Some p
       ↔ k ∈ cfg.RootAppenderRefs root ∧ nameToAppender c !! k = Some p)
  ∧ (∀ r, r ∈ cfg.RootAppenderRefs root → is_Some (rootAppenders c !! r))
  ∧ size (rootAppenders c) = length (rootAppenderRefs c).
Proof.
  intros Hraw HNew root.
  destruct (New_Ret_registry _ _ _ _ _ Hraw HNew)
    as (c0&c1&wa&Hreg&Hs&_&_&Hc).
  assert (Hrefs : ∃ seed, rootAppenderRefs c1
            = (map_range seed _
                 (MakeStringSet (cfg.RootAppenderRefs root))).*1).
  { rewrite startup_unfold, Hreg in Hs. cbn zeta in Hs. fold root in Hs.
    destruct (UnmarshalText (cfg.RootLevel root)); [|done].
    destruct (resolveRefs c0 _ _); [|done..]. simplify_eq. by eexists. }
  destruct Hrefs as [seed Hrefs].
  apply startup_Ret_inv in Hs
    as ((Hok&_&Hroot&_)&_&_&(lv&Hlv&HL)&Hname&Hset&Hall&_).
  fold root in Hlv, Hname, Hset, Hall.
  assert (Hmem : ∀ r, r ∈ rootAppenderRefs c1 ↔ r ∈ cfg.RootAppenderRefs root).
  { intros r. by rewrite <-!MakeStringSet_lookup, Hset. }
  assert (Hlk : ∀ k p, rootAppenders c1 !! k = Some p
       ↔ k ∈ cfg.RootAppenderRefs root ∧ nameToAppender c1 !! k = Some p).
  { intros k p. rewrite Hroot, resolved_lookup, Hset, MakeStringSet_lookup.
    tauto. }
  rewrite Hc. simpl. split_and!; try done.
  - eexists. split; [done|]. by rewrite Hlv.
  - rewrite Hrefs, map_range_perm. apply NoDup_fst_map_to_list.
  - intros r Hr. destruct (Hall r Hr) as [p Hp]. exists p. by apply Hlk.
  - rewrite Hroot, resolved_size.
    + rewrite Hset, Hrefs, length_fmap.
      by rewrite map_range_perm, length_map_to_list.
    + intros k Hk. rewrite Hset in Hk. by apply Hall, MakeStringSet_lookup.
Qed.

(** X8.  The declared loggers of a registry [New] returns: the names that
    have a handle are the declared names, which are pairwise distinct, and
    the handle of a declaration bears its name, is gated by a level with
    the severity of its effective level name, and writes to the registered
    appenders of its effective references, at least one. *)
Theorem New_declared raw config w c w1 :
  Unpack raw = inr config →
  New raw w = Ret (c, w1) →
  let lcs := cfg.logger (cfg.loggers config) in
  NoDup (cfg.Name <$> lcs)
  ∧ (∀ k, is_Some (nameToLogger c !! k) ↔ k ∈ cfg.Name <$> lcs)
  ∧ (∀ lc, lc ∈ lcs →
       ∃ zl L,
         nameToLogger c !! cfg.Name lc = Some zl
         ∧ logger_name zl = cfg.Name lc
         ∧ UnmarshalText (effectiveLevelName c lc) = Some (level_value L)
         ∧ gatesOf zl = replicate (length (appendersOf zl)) (Some L)
         ∧ appendersOf zl
           ≡ₚ appendersIn (resolved c (MakeStringSet (effectiveRefs c lc)))
         ∧ appendersOf zl ≠ []).
Proof.
  intros Hraw HNew lcs.
  destruct (New_Ret_registry _ _ _ _ _ Hraw HNew)
    as (c0&c1&wa&_&Hs&Hb&_&Hc).
  apply startup_Ret_inv in Hs as (_&_&Hempty&_).
  apply buildLoggers_Ret_inv in Hb as (_&Hnd&_&_&Hdecl&Horigin&_).
  fold lcs in Hnd, Hdecl, Horigin.
  split_and!; [done| |].
  - intros k. split.
    + intros [zl Hzl]. destruct (Horigin k zl Hzl) as [Hold|Hbuilt].
      * by rewrite Hempty, lookup_empty in Hold.
      * destruct Hbuilt as (lc&_&_&Hin&->&_). apply list_elem_of_fmap.
        eauto.
    + intros (lc&->&Hin)%list_elem_of_fmap.
      destruct (Hdecl lc Hin) as (zl&_&_&Hzl&_). by eexists.
  - intros lc Hin. destruct (Hdecl lc Hin) as (zl&wx&wy&Hzl&Hnew&_).
    apply newLogger_Ret_obs in Hnew as (lv&Hlv&Hn&_&Happs&Hne&Hg&_).
    exists zl, (mkAtomicLevel (next_addr wx) lv).
    rewrite Hc. split_and!; try done.
Qed.

(** ** What the errors of [New] say *)

Lemma newLogger_Fail_inv c lc w e :
  newLogger c lc w = Fail e →
  (e = ErrInvalidLevel (effectiveLevelName c lc)
   ∧ UnmarshalText (effectiveLevelName c lc) = None)
  ∨ (∃ r, e = ErrNotFound r ∧ r ∈ effectiveRefs c lc
          ∧ nameToAppender c !! r = None)
  ∨ (e = ErrNoAppenders ∧ effectiveRefs c lc = []).
Proof.
  rewrite newLogger_unfold.
  destruct (UnmarshalText _) as [lv|] eqn:Hlv.
  2:{ intros [= <-]. by left. }
  destruct (newLogger_resolve c (effectiveRefs c lc) (iter_seed w))
    as [(am&->&Hall&->)|(r&Hr&Hnone&->)].
  2:{ intros [= <-]. right. left. by exists r. }
  case_decide as Hsize.
  - intros [= <-]. right. right. split; [done|].
    apply map_size_empty_iff, resolved_empty_iff in Hsize.
    + by apply MakeStringSet_empty_inv.
    + intros k Hk. by apply Hall, MakeStringSet_lookup.
  - destruct (appendCores _ _) as [zcs|e'|] eqn:Hcores; [done| |done].
    by apply appendCores_not_Fail in Hcores.
Qed.

Lemma buildLoggers_Fail_inv core lcs w e :
  buildLoggers core lcs w = Fail e →
  ∃ pre lc post c2 wb,
    lcs = pre ++ lc :: post
    ∧ buildLoggers core pre w = Ret (c2, wb)
    ∧ (newLogger c2 lc wb = Fail e
       ∨ (e = ErrDuplicateLogger (cfg.Name lc)
          ∧ is_Some (nameToLogger c2 !! cfg.Name lc))).
Proof.
  revert core w. induction lcs as [|lc rest IH]; intros core w H; [done|].
  rewrite buildLoggers_cons in H.
  destruct (newLogger core lc w) as [[l w1]|e'|] eqn:Hnew; [| |done].
  - destruct (nameToLogger core !! cfg.Name lc) as [old|] eqn:Hold.
    + injection H as <-. exists [], lc, rest, core, w.
      split_and!; [done..|]. right. split; [done|by eexists].
    + apply IH in H as (pre&lc'&post&c2&wb&->&Hpre&Hlc').
      exists (lc :: pre), lc', post, c2, wb. split_and!; [done| |done].
      by rewrite buildLoggers_cons, Hnew, Hold.
  - injection H as <-. exists [], lc, rest, core, w.
    split_and!; [done..|]. by left.
Qed.

Lemma registerConfigs_Fail_inv core appenderType blocks e :
  registerConfigs core appenderType blocks = Fail e →
  ∃ pre b post core1,
    blocks = pre ++ b :: post
    ∧ registerConfigs core appenderType pre = Ret core1
    ∧ ((∃ msg, e = ErrExternal msg
               ∧ (CreateAppender appenderType b = inl msg
                  ∨ ConfigName b = inl msg))
       ∨ (∃ a name, CreateAppender appenderType b = inr a
                    ∧ ConfigName b = inr name
                    ∧ putAppender core1 name a = (core1, Some e))).
Proof.
  revert core. induction blocks as [|b blocks IH]; intros core H; [done|].
  simpl in H.
  destruct (CreateAppender appenderType b) as [msg|a] eqn:Ha.
  { monad_simpl. injection H as <-. exists [], b, blocks, core.
    split_and!; [done..|]. left. exists msg. eauto. }
  destruct (ConfigName b) as [msg|name] eqn:Hname.
  { monad_simpl. injection H as <-. exists [], b, blocks, core.
    split_and!; [done..|]. left. exists msg. eauto. }
  monad_simpl.
  destruct (putAppender core name a) as [core1 [e'|]] eqn:Hput.
  - injection H as <-. exists [], b, blocks, core. split_and!; [done..|].
    right. exists a, name. split_and!; [done..|].
    apply putAppender_inv in Hput as Hinv.
    by destruct Hinv as [(_&_&->)|[(_&_&_&->)|[(_&_&_&_&->)|(?&_)]]].
  - apply IH in H as (pre&b'&post&core2&->&Hpre&Hb').
    exists (b :: pre), b', post, core2. split_and!; [done| |done].
    simpl. rewrite Ha, Hname. monad_simpl. by rewrite Hput.
Qed.

Lemma registerGroups_Fail_inv core groups e :
  registerGroups core groups = Fail e →
  ∃ gpre ty blocks gpost core1,
    groups = gpre ++ (ty, blocks) :: gpost
    ∧ registerGroups core gpre = Ret core1
    ∧ registerConfigs core1 ty blocks = Fail e.
Proof.
  revert core. induction groups as [|[ty blocks] groups IH]; intros core H;
    [done|].
  simpl in H.
  destruct (registerConfigs core ty blocks) as [core1|e'|] eqn:H1;
    monad_simpl; [| |done].
  - apply IH in H as (gpre&ty'&blocks'&gpost&core2&->&Hpre&Hb).
    exists ((ty, blocks) :: gpre), ty', blocks', gpost, core2.
    split_and!; [done| |done]. simpl. rewrite H1. by monad_simpl.
  - injection H as <-. by exists [], ty, blocks, groups, core.
Qed.

Lemma registerConfigs_blocks core appenderType blocks core' :
  registerConfigs core appenderType blocks = Ret core' →
  ∀ b, b ∈ blocks →
    ∃ name a, ConfigName b = inr name
              ∧ CreateAppender appenderType b = inr a.
Proof.
  revert core. induction blocks as [|b blocks IH]; intros core H b' Hin.
  { by apply elem_of_nil in Hin. }
  simpl in H.
  destruct (CreateAppender appenderType b) as [?|a] eqn:Ha; [done|].
  destruct (ConfigName b) as [?|name] eqn:Hname; [done|]. monad_simpl.
  destruct (putAppender core name a) as [core1 [e|]]; [done|].
  apply elem_of_cons in Hin as [->|Hin]; [by eauto|by eapply IH].
Qed.

Lemma registerGroups_blocks core groups core' :
  registerGroups core groups = Ret core' →
  ∀ ty blocks b, (ty, blocks) ∈ groups → b ∈ blocks →
    ∃ name a, ConfigName b = inr name ∧ CreateAppender ty b = inr a.
Proof.
  revert core. induction groups as [|[ty blocks] groups IH];
    intros core H ty' blocks' b Hin Hb.
  { by apply elem_of_nil in Hin. }
  simpl in H.
  destruct (registerConfigs core ty blocks) as [core1| |] eqn:H1; [|done..].
  monad_simpl. apply elem_of_cons in Hin as [[= -> ->]|Hin].
  - by eapply registerConfigs_blocks.
  - by eapply IH.
Qed.

(** The outcome of [startup], phase by phase. *)
Lemma startup_Fail_inv config w e :
  startup config w = Fail e →
  let root := cfg.root (cfg.loggers config) in
  registered config (iter_seed w) = Fail e
  ∨ ∃ c0, registered config (iter_seed w) = Ret c0
      ∧ ((e = ErrInvalidLevel (cfg.RootLevel root)
          ∧ UnmarshalText (cfg.RootLevel root) = None)
         ∨ (∃ r, e = ErrNotFound r ∧ r ∈ cfg.RootAppenderRefs root
                 ∧ nameToAppender c0 !! r = None)).
Proof.
  rewrite startup_unfold. intros H root.
  destruct (registered config (iter_seed w)) as [c0|e'|] eqn:Hreg;
    [|injection H as <-; by left|done].
  right. exists c0. split; [done|]. cbn zeta in H. fold root in H.
  destruct (UnmarshalText (cfg.RootLevel root)) as [lv|] eqn:Hlv.
  - destruct (newLogger_resolve c0 (cfg.RootAppenderRefs root)
                (S (iter_seed w)))
      as [(am&Ham&_)|(r&Hr&Hnone&Hf)].
    + by rewrite Ham in H.
    + rewrite Hf in H. injection H as <-. right. by exists r.
  - injection H as <-. by left.
Qed.

(** The errors of the registration of the appenders are errors of a
    collaborator or of [putAppender]. *)
Lemma registered_Fail_kind config seed e :
  registered config seed = Fail e →
  (∃ msg, e = ErrExternal msg) ∨ e = ErrEmptyName ∨ e = ErrNilAppender
  ∨ ∃ n, e = ErrDuplicateName n.
Proof.
  unfold registered.
  intros (gpre&ty&blocks&gpost&core1&_&_&Hb)%registerGroups_Fail_inv.
  apply registerConfigs_Fail_inv in Hb
    as (pre&b&post&core2&_&_&[(msg&->&_)|(a&name&_&_&Hput)]); [by eauto|].
  apply putAppender_inv in Hput
    as [(?&_)|[(?&_)|[(?&_)|(?&_)]]]; simplify_eq; eauto.
Qed.

(** X9.  The errors of [New] about the loggers say what is wrong with the
    configuration.  The error of a level names a text that does not parse
    and is the level of the root or of a declared logger.  The error "not
    found appender" names a reference of the root or of a declared logger
    that is the name of no appender block.  The error "empty appenders"
    comes with a root without references and a declared logger without
    references.  The error "duplicated logger" names a name that at least
    two declarations bear. *)
Theorem New_logger_errors raw config w e :
  Unpack raw = inr config →
  New raw w = Fail e →
  let root := cfg.root (cfg.loggers config) in
  let lcs := cfg.logger (cfg.loggers config) in
  (∀ t, e = ErrInvalidLevel t →
     UnmarshalText t = None
     ∧ (t = cfg.RootLevel root ∨ ∃ lc, lc ∈ lcs ∧ t = cfg.Level lc))
  ∧ (∀ r, e = ErrNotFound r →
     (r ∈ cfg.RootAppenderRefs root
      ∨ ∃ lc, lc ∈ lcs ∧ r ∈ cfg.AppenderRefs lc)
     ∧ ∀ ty blocks b, cfg.Appenders config !! ty = Some blocks →
         b ∈ blocks → ConfigName b ≠ inr r)
  ∧ (e = ErrNoAppenders →
     cfg.RootAppenderRefs root = []
     ∧ ∃ lc, lc ∈ lcs ∧ cfg.AppenderRefs lc = [])
  ∧ (∀ n, e = ErrDuplicateLogger n →
     2 ≤ length (filter (λ lc, cfg.Name lc = n) lcs)).
Proof.
  intros Hraw HNew root lcs. rewrite (New_unfold _ _ _ Hraw) in HNew.
  assert (Hnoblock : ∀ c0 r,
    registered config (iter_seed w) = Ret c0 →
    nameToAppender c0 !! r = None →
    ∀ ty blocks b, cfg.Appenders config !! ty = Some blocks →
      b ∈ blocks → ConfigName b ≠ inr r).
  { intros c0 r Hreg Hnone ty blocks b Hty Hb Hname. unfold registered in Hreg.
    assert (Hin : (ty, blocks)
              ∈ map_range (iter_seed w) _ (cfg.Appenders config)).
    { rewrite map_range_perm. by apply elem_of_map_to_list. }
    destruct (registerGroups_blocks _ _ _ Hreg ty blocks b Hin Hb)
      as (name&a&Hname'&Ha).
    apply registerGroups_spec in Hreg as (Hiff&_).
    assert (nameToAppender c0 !! r = Some a) as Hsome; [|congruence].
    apply Hiff. right. by exists ty, blocks, b. }
  destruct (startup config w) as [[c1 wa]|e'|] eqn:Hs; [| |done].
  - (* the loop over the declared loggers fails *)
    apply startup_Ret_inv in Hs
      as ((Hok&(L&HL&Hparse)&Hroot&Hall)&(c0&Hreg&Happ)&Hempty&_&Hname&Hset&_).
    fold root in Hname, Hset.
    apply buildLoggers_Fail_inv in HNew
      as (pre&lc&post&c2&wb&Hlcs&Hpre&Hfail).
    fold lcs in Hlcs.
    assert (Hin : lc ∈ lcs).
    { rewrite Hlcs. apply elem_of_app. right. left. }
    apply buildLoggers_Ret_inv in Hpre as (Hc2&_&_&_&_&Horigin&_).
    destruct Hfail as [Hnew|[-> [zl Hzl]]].
    + rewrite Hc2, newLogger_set_nameToLogger in Hnew.
      apply newLogger_Fail_inv in Hnew
        as [[-> Hnone]|[(r&->&Hr&Hnone)|[-> Hnil]]].
      * split_and!; try done. intros t [= <-]. split; [done|].
        right. exists lc. split; [done|]. unfold effectiveLevelName in *.
        case_decide; [congruence|done].
      * split_and!; try done. intros r' [= <-]. split.
        -- right. exists lc. split; [done|]. unfold effectiveRefs in Hr.
           case_decide; [|done]. destruct (Hall r Hr) as [? ?]. congruence.
        -- apply (Hnoblock c0); [done|]. by rewrite <-Happ.
      * split_and!; try done. intros _. unfold effectiveRefs in Hnil.
        case_decide as Hlen; [|by rewrite Hnil in Hlen].
        split.
        -- apply MakeStringSet_empty_inv. by rewrite <-Hset, Hnil.
        -- exists lc. split; [done|]. by destruct (cfg.AppenderRefs lc).
    + split_and!; try done. intros n [= <-].
      destruct (Horigin _ _ Hzl) as [Hold|(lc'&_&_&Hin'&Heq&_)].
      { by rewrite Hempty, lookup_empty in Hold. }
      rewrite Hlcs, filter_app, filter_cons_True by done.
      rewrite length_app. simpl.
      assert (0 < length (filter (λ lc0, cfg.Name lc0 = cfg.Name lc) pre));
        [|lia].
      assert (lc' ∈ filter (λ lc0, cfg.Name lc0 = cfg.Name lc) pre) as Hf.
      { apply list_elem_of_filter. by split. }
      destruct (filter _ pre); [by apply elem_of_nil in Hf|simpl; lia].
  - (* the start-up fails *)
    injection HNew as ->.
    apply startup_Fail_inv in Hs as [Hreg|(c0&Hreg&Hroot)].
    + apply registered_Fail_kind in Hreg
        as [(msg&->)|[->|[->|(n&->)]]]; by split_and!.
    + fold root in Hroot.
      destruct Hroot as [[-> Hnone]|(r&->&Hr&Hnone)].
      * split_and!; try done. intros t [= <-]. by split; [|left].
      * split_and!; try done. intros r' [= <-]. split; [by left|].
        by apply (Hnoblock c0).
Qed.

Lemma blocksOf_app {B} (g1 g2 : list (string * list B)) :
  blocksOf (g1 ++ g2) = blocksOf g1 ++ blocksOf g2.
Proof. unfold blocksOf. apply bind_app. Qed.

Lemma blocksOf_elem {B} (groups : list (string * list B)) ty blocks b :
  (ty, blocks) ∈ groups → b ∈ blocks → (ty, b) ∈ blocksOf groups.
Proof.
  intros Hin Hb. unfold blocksOf. apply list_elem_of_bind.
  exists (ty, blocks). split; [|done]. simpl. apply list_elem_of_fmap.
  by exists b.
Qed.

Lemma filter_two {A} (P : A → Prop) `{∀ x, Decision (P x)} l1 x l2 y :
  y ∈ l1 → P y → P x → 2 ≤ length (filter P (l1 ++ x :: l2)).
Proof.
  intros Hy HPy HPx. rewrite filter_app, filter_cons_True by done.
  rewrite length_app. simpl.
  assert (y ∈ filter P l1) as Hf by by apply list_elem_of_filter.
  destruct (filter P l1); [by apply elem_of_nil in Hf|simpl; lia].
Qed.

(** Which phase of [New] an error comes from. *)
Lemma New_Fail_phase raw config w e :
  Unpack raw = inr config →
  New raw w = Fail e →
  registered config (iter_seed w) = Fail e
  ∨ (∃ t, e = ErrInvalidLevel t) ∨ (∃ r, e = ErrNotFound r)
  ∨ e = ErrNoAppenders ∨ ∃ n, e = ErrDuplicateLogger n.
Proof.
  intros Hraw HNew. rewrite (New_unfold _ _ _ Hraw) in HNew.
  destruct (startup config w) as [[c1 wa]|e'|] eqn:Hs; [| |done].
  - apply buildLoggers_Fail_inv in HNew
      as (pre&lc&post&c2&wb&_&_&[Hnew|[-> _]]); [|by eauto 6].
    apply newLogger_Fail_inv in Hnew
      as [[-> _]|[(r&->&_)|[-> _]]]; by eauto 6.
  - injection HNew as ->.
    apply startup_Fail_inv in Hs
      as [Hreg|(c0&_&[[-> _]|(r&->&_)])]; by eauto 6.
Qed.

(** X10.  [New] never panics, even when the appender factory returns nil
    appenders, and its errors about the appenders say what is wrong with
    the configuration.  "name should not be empty" comes with a block whose
    name is empty; "appender should not be nil" with a named block for
    which the factory returned nil; "duplicated appender name" names a name
    that at least two blocks bear; and an error of a collaborator, once the
    configuration is decoded, is the error of the factory or of the name of
    some block. *)
Theorem New_appender_errors raw config w :
  Unpack raw = inr config →
  New raw w ≠ Crash
  ∧ ∀ e, New raw w = Fail e →
    (e = ErrEmptyName →
       ∃ ty blocks b, cfg.Appenders config !! ty = Some blocks ∧ b ∈ blocks
         ∧ ConfigName b = inr "")
    ∧ (e = ErrNilAppender →
       ∃ ty blocks b name,
         cfg.Appenders config !! ty = Some blocks ∧ b ∈ blocks
         ∧ CreateAppender ty b = inr None
         ∧ ConfigName b = inr name ∧ name ≠ "")
    ∧ (∀ n, e = ErrDuplicateName n →
       2 ≤ length (filter (λ tb, ConfigName tb.2 = inr n)
                     (allBlocks config)))
    ∧ (∀ msg, e = ErrExternal msg →
       ∃ ty blocks b, cfg.Appenders config !! ty = Some blocks ∧ b ∈ blocks
         ∧ (CreateAppender ty b = inl msg ∨ ConfigName b = inl msg)).
Proof.
  intros Hraw. split; [apply New_not_Crash|]. intros e HNew.
  apply (New_Fail_phase _ _ _ _ Hraw) in HNew
    as [Hreg|[(t&->)|[(r&->)|[->|(n&->)]]]]; [|by split_and!..].
  unfold registered in Hreg.
  set (walk := map_range (iter_seed w) _ (cfg.Appenders config)) in *.
  assert (Hwalk : ∀ ty blocks, (ty, blocks) ∈ walk →
            cfg.Appenders config !! ty = Some blocks).
  { intros ty blocks Hin. unfold walk in Hin.
    rewrite map_range_perm in Hin. by apply elem_of_map_to_list. }
  apply registerGroups_Fail_inv in Hreg
    as (gpre&ty&blocks&gpost&core1&Hgroups&Hgpre&Hfail).
  apply registerConfigs_Fail_inv in Hfail
    as (pre&b&post&core2&Hblocks&Hpre&Hb).
  assert (Hty : cfg.Appenders config !! ty = Some blocks).
  { apply Hwalk. rewrite Hgroups. apply elem_of_app. right. left. }
  assert (Hin : b ∈ blocks).
  { rewrite Hblocks. apply elem_of_app. right. left. }
  destruct Hb as [(msg&->&Hmsg)|(a&name&Ha&Hname&Hput)].
  { split_and!; try done. intros msg' [= <-]. by exists ty, blocks, b. }
  apply putAppender_inv in Hput
    as [(He&Hn0&_)|[(He&Hn0&Ha0&_)|[(He&Hn0&_&[p Hp]&_)|(He&_)]]];
    [injection He as ->..|discriminate He].
  - split_and!; try done. intros _. exists ty, blocks, b.
    by rewrite Hname, Hn0.
  - split_and!; try done. intros _. exists ty, blocks, b, name.
    by rewrite Ha, Ha0.
  - split_and!; try done. intros n [= <-].
    assert (Hearlier : ∃ tb, tb ∈ blocksOf gpre ++ (pair ty <$> pre)
                             ∧ ConfigName tb.2 = inr name).
    { apply registerConfigs_spec in Hpre as (Hiff2&_).
      apply registerGroups_spec in Hgpre as (Hiff1&_).
      apply Hiff2 in Hp as [Hp|(b'&Hb'&Hn'&_)].
      - apply Hiff1 in Hp as [Hp|(ty'&blocks'&b'&Hg'&Hb'&Hn'&_)].
        { unfold emptyCore in Hp. simpl in Hp.
          by rewrite lookup_empty in Hp. }
        exists (ty', b'). split; [|done]. apply elem_of_app. left.
        by eapply blocksOf_elem.
      - exists (ty, b'). split; [|done]. apply elem_of_app. right.
        apply list_elem_of_fmap. by exists b'. }
    destruct Hearlier as (tb&Htb&Hntb).
    assert (Hflat : blocksOf walk
              = (blocksOf gpre ++ (pair ty <$> pre))
                ++ (ty, b) :: (pair ty <$> post) ++ blocksOf gpost).
    { rewrite Hgroups, blocksOf_app.
      change (blocksOf ((ty, blocks) :: gpost))
        with ((pair ty <$> blocks) ++ blocksOf gpost).
      rewrite Hblocks, fmap_app, fmap_cons, <-!app_assoc. done. }
    unfold allBlocks.
    assert (Hperm : blocksOf (map_to_list (cfg.Appenders config))
                    ≡ₚ blocksOf walk).
    { unfold blocksOf, walk. by rewrite map_range_perm. }
    rewrite Hperm, Hflat. by eapply filter_two.
Qed.

(** ** Handles and their addresses *)

Lemma buildLoggers_addrs core lcs w c w' :
  buildLoggers core lcs w = Ret (c, w') →
  (∀ k zl, nameToLogger core !! k = Some zl →
           logger_addr zl < next_addr w) →
  (∀ k k' zl zl', nameToLogger core !! k = Some zl →
     nameToLogger core !! k' = Some zl' →
     logger_addr zl = logger_addr zl' → k = k') →
  (∀ k zl, nameToLogger c !! k = Some zl → logger_addr zl < next_addr w')
  ∧ (∀ k k' zl zl', nameToLogger c !! k = Some zl →
       nameToLogger c !! k' = Some zl' →
       logger_addr zl = logger_addr zl' → k = k').
Proof.
  revert core w. induction lcs as [|lc rest IH]; intros core w H Hlt Hinj.
  { simpl in H. monad_simpl. by simplify_eq. }
  rewrite buildLoggers_cons in H.
  destruct (newLogger core lc w) as [[l w1]| |] eqn:Hnew; [|done..].
  destruct (nameToLogger core !! cfg.Name lc) eqn:Hfree; [done|].
  apply newLogger_Ret_obs in Hnew as (_&_&_&Haddr&_&_&_&_&_&Hw1).
  apply IH in H; [done| |]; simpl.
  - intros k zl Hk. apply lookup_insert_Some in Hk as [[_ <-]|[_ Hk]].
    + lia.
    + apply Hlt in Hk. lia.
  - intros k k' zl zl' Hk Hk' Heq.
    apply lookup_insert_Some in Hk as [[<- <-]|[Hne Hk]];
      apply lookup_insert_Some in Hk' as [[<- <-]|[Hne' Hk']]; try done.
    + apply Hlt in Hk'. lia.
    + apply Hlt in Hk. lia.
    + by eapply Hinj.
Qed.

Lemma newNamedLogger_addr c name w zl w' :
  newNamedLogger c name w = Ret (zl, w') →
  logger_addr zl = next_addr w ∧ next_addr w' = S (next_addr w).
Proof.
  rewrite newNamedLogger_unfold.
  destruct (appendCores _ _); [|done..]. by intros [= <- <-].
Qed.

Lemma Built_insert (calls : list call) i cl j name zl :
  (∀ n z, cl ≠ Built n z) →
  <[i := cl]> calls !! j = Some (Built name zl) →
  calls !! j = Some (Built name zl) ∧ i ≠ j.
Proof.
  intros Hcl Hj.
  apply list_lookup_insert_Some in Hj as [(_&Heq&_)|[? ?]]; [|done].
  by destruct (Hcl name zl).
Qed.

Lemma fresh_inv_step s s' : fresh_inv s → step s s' → fresh_inv s'.
Proof.
  intros (Hmap&Hcand&Hinj&Hcm&Hcc) Hstep.
  destruct Hstep as
    [c w calls stores name
    |c w calls stores i name logger Hi Hhit
    |c w calls stores i name Hi Hmiss
    |c w calls stores i name zl w' Hi Hbuild
    |c w calls stores i name Hi Hbuild
    |c w calls stores i name zl v loaded m Hi Hstore];
    unfold fresh_inv; simpl in *.
  - assert (Hold : ∀ j n z, (calls ++ [Called name]) !! j = Some (Built n z) →
                            calls !! j = Some (Built n z)).
    { intros j n z Hj. apply lookup_app_Some in Hj as [?|[_ Hj]]; [done|].
      by apply list_elem_of_lookup_2, list_elem_of_singleton in Hj. }
    split_and!; try done.
    + intros j n z Hj. by eapply Hcand, Hold.
    + intros j n z k zl' Hj. by eapply Hcm, Hold.
    + intros j j' n n' z z' Hj Hj'. by eapply Hcc; eapply Hold.
  - assert (Hold : ∀ j n z,
              <[i := Returned name logger]> calls !! j = Some (Built n z) →
              calls !! j = Some (Built n z)).
    { intros j n z Hj. by apply Built_insert in Hj as [? _]. }
    split_and!; try done.
    + intros j n z Hj. by eapply Hcand, Hold.
    + intros j n z k zl' Hj. by eapply Hcm, Hold.
    + intros j j' n n' z z' Hj Hj'. by eapply Hcc; eapply Hold.
  - assert (Hold : ∀ j n z,
              <[i := Missed name]> calls !! j = Some (Built n z) →
              calls !! j = Some (Built n z)).
    { intros j n z Hj. by apply Built_insert in Hj as [? _]. }
    split_and!; try done.
    + intros j n z Hj. by eapply Hcand, Hold.
    + intros j n z k zl' Hj. by eapply Hcm, Hold.
    + intros j j' n n' z z' Hj Hj'. by eapply Hcc; eapply Hold.
  - apply newNamedLogger_addr in Hbuild as [Haddr Hw'].
    assert (Hnew : ∀ j n z,
              <[i := Built name zl]> calls !! j = Some (Built n z) →
              (i = j ∧ z = zl)
              ∨ (i ≠ j ∧ calls !! j = Some (Built n z))).
    { intros j n z Hj.
      apply list_lookup_insert_Some in Hj as [(?&?&_)|[? ?]];
        [left; by simplify_eq|by right]. }
    split_and!.
    + intros k z Hk. apply Hmap in Hk. lia.
    + intros j n z Hj. apply Hnew in Hj as [[_ ->]|[_ Hj]]; [lia|].
      apply Hcand in Hj. lia.
    + done.
    + intros j n z k z' Hj Hk. apply Hnew in Hj as [[_ ->]|[_ Hj]].
      * apply Hmap in Hk. lia.
      * by eapply Hcm.
    + intros j j' n n' z z' Hj Hj' Hne.
      apply Hnew in Hj as [[<- ->]|[? Hj]];
        apply Hnew in Hj' as [[<- ->]|[? Hj']]; try done.
      * apply Hcand in Hj'. lia.
      * apply Hcand in Hj. lia.
      * by eapply Hcc.
  - assert (Hold : ∀ j n z,
              <[i := Panicked name]> calls !! j = Some (Built n z) →
              calls !! j = Some (Built n z)).
    { intros j n z Hj. by apply Built_insert in Hj as [? _]. }
    split_and!; try done.
    + intros j n z Hj. by eapply Hcand, Hold.
    + intros j n z k zl' Hj. by eapply Hcm, Hold.
    + intros j j' n n' z z' Hj Hj'. by eapply Hcc; eapply Hold.
  - assert (Hold : ∀ j n z,
              <[i := Returned name v]> calls !! j = Some (Built n z) →
              calls !! j = Some (Built n z) ∧ i ≠ j).
    { intros j n z Hj. by apply Built_insert in Hj. }
    apply LoadOrStore_cases in Hstore as [(Hm&->&->)|(Hm&->&->&->)].
    + split_and!; try done.
      * intros j n z Hj. by eapply Hcand, Hold.
      * intros j n z k zl' Hj. by eapply Hcm, Hold.
      * intros j j' n n' z z' Hj Hj'. by eapply Hcc; eapply Hold.
    + split_and!.
      * intros k z Hk. apply lookup_insert_Some in Hk as [[_ <-]|[_ Hk]];
          [by eapply Hcand|by eapply Hmap].
      * intros j n z Hj. by eapply Hcand, Hold.
      * intros k k' z z' Hk Hk' Heq.
        apply lookup_insert_Some in Hk as [[<- <-]|[Hne Hk]];
          apply lookup_insert_Some in Hk' as [[<- <-]|[Hne' Hk']]; try done.
        -- by destruct (Hcm _ _ _ _ _ Hi Hk').
        -- by destruct (Hcm _ _ _ _ _ Hi Hk).
        -- by eapply Hinj.
      * intros j n z k z' Hj Hk. apply Hold in Hj as [Hj Hne].
        apply lookup_insert_Some in Hk as [[_ <-]|[_ Hk]].
        -- by eapply (Hcc j i).
        -- by eapply Hcm.
      * intros j j' n n' z z' Hj Hj'. by eapply Hcc; eapply Hold.
Qed.

Lemma fresh_inv_rtc s s' : fresh_inv s → rtc step s s' → fresh_inv s'.
Proof.
  intros Hinv Hrun. induction Hrun as [|s1 s2 s3 H12 _ IH]; [done|].
  by eapply IH, fresh_inv_step.
Qed.

(** X11.  Different names never share a handle.  On a registry returned by
    [New], run in the world [New] left or in a later one, after any run of
    calls of [GetLogger]: the handles stored under two different names are
    different objects, and so are the handles two calls for different
    names have returned. *)
Theorem handles_distinct raw w0 c w1 w s :
  New raw w0 = Ret (c, w1) →
  next_addr w1 ≤ next_addr w →
  rtc step (mkSystem c w [] []) s →
  (∀ k k' zl zl',
     nameToLogger (sys_core s) !! k = Some zl →
     nameToLogger (sys_core s) !! k' = Some zl' →
     k ≠ k' → logger_addr zl ≠ logger_addr zl')
  ∧ (∀ i j name name' v v',
       sys_calls s !! i = Some (Returned name v) →
       sys_calls s !! j = Some (Returned name' v') →
       name ≠ name' → logger_addr v ≠ logger_addr v' ∧ v ≠ v').
Proof.
  intros HNew Hle Hrun.
  assert (Hinit : fresh_inv (mkSystem c w [] [])).
  { apply New_Ret_inv in HNew as (config&c1&wa&_&Hs&Hb).
    apply startup_Ret_inv in Hs as (_&_&Hempty&_).
    apply buildLoggers_addrs in Hb as [Hlt Hinj].
    - split_and!; simpl; try done.
      intros k zl Hk. apply Hlt in Hk. lia.
    - intros k zl Hk. by rewrite Hempty, lookup_empty in Hk.
    - intros k k' zl zl' Hk. by rewrite Hempty, lookup_empty in Hk. }
  destruct (fresh_inv_rtc _ _ Hinit Hrun) as (_&_&Hinj&_).
  destruct (run_inv_rtc c _ _ (run_inv_init c w) Hrun) as (_&_&Hret&_).
  assert (Hmap : ∀ k k' zl zl',
     nameToLogger (sys_core s) !! k = Some zl →
     nameToLogger (sys_core s) !! k' = Some zl' →
     k ≠ k' → logger_addr zl ≠ logger_addr zl').
  { intros k k' zl zl' Hk Hk' Hne Heq. apply Hne. by eapply Hinj. }
  split; [done|].
  intros i j name name' v v' Hi Hj Hne.
  apply Hret in Hi, Hj.
  assert (logger_addr v ≠ logger_addr v') by by eapply Hmap.
  split; [done|congruence].
Qed.

(** ** [New] and the order of the walks *)

Lemma registerConfigs_good core ty blocks core' :
  registerConfigs core ty blocks = Ret core' →
  NoDup (ConfigName <$> blocks)
  ∧ ∀ b, b ∈ blocks → accepted core (ty, b).
Proof.
  revert core. induction blocks as [|b blocks IH]; intros core H.
  { split; [constructor|]. by intros b ?%elem_of_nil. }
  simpl in H.
  destruct (CreateAppender ty b) as [?|a] eqn:Ha; [done|].
  destruct (ConfigName b) as [?|name] eqn:Hname; [done|]. monad_simpl.
  destruct (putAppender core name a) as [core1 [e|]] eqn:Hput; [done|].
  apply putAppender_inv in Hput
    as [(?&_)|[(?&_)|[(?&_)|(_&Hne&[a' ->]&Hfree&->)]]]; try discriminate.
  apply IH in H as [Hnd Hall]. split.
  - apply NoDup_cons. split; [|done].
    intros (b'&Heq&Hin)%list_elem_of_fmap.
    destruct (Hall b' Hin) as (name'&_&Hname'&_&_&Hnone). simpl in *.
    assert (name' = name) as -> by congruence.
    by rewrite lookup_insert_eq in Hnone.
  - intros b' [->|Hin]%elem_of_cons.
    + exists name, a'. by split_and!.
    + destruct (Hall b' Hin) as (name'&a''&Hname'&?&?&Hnone). simpl in *.
      exists name', a''. split_and!; try done.
      apply lookup_insert_None in Hnone. tauto.
Qed.

Lemma registerGroups_good core groups core' :
  registerGroups core groups = Ret core' →
  NoDup ((λ tb, ConfigName tb.2) <$> blocksOf groups)
  ∧ ∀ tb, tb ∈ blocksOf groups → accepted core tb.
Proof.
  revert core. induction groups as [|[ty blocks] groups IH]; intros core H.
  { split; [constructor|]. by intros tb ?%elem_of_nil. }
  simpl in H.
  destruct (registerConfigs core ty blocks) as [core1| |] eqn:H1; [|done..].
  monad_simpl. apply registerConfigs_good in H1 as Hgood.
  destruct Hgood as [Hnd1 Hall1].
  apply registerConfigs_spec in H1 as (Hiff&_).
  apply IH in H as [Hnd Hall].
  change (blocksOf ((ty, blocks) :: groups))
    with ((pair ty <$> blocks) ++ blocksOf groups).
  split.
  - rewrite fmap_app. apply NoDup_app. split_and!; [|  |done].
    + rewrite <-list_fmap_compose. done.
    + intros n (tb&->&Hin)%list_elem_of_fmap Hn.
      apply list_elem_of_fmap in Hin as (b&->&Hb).
      apply list_elem_of_fmap in Hn as (tb'&Heq&Hin').
      destruct (Hall tb' Hin') as (name&_&Hname&_&_&Hnone).
      destruct (Hall1 b Hb) as (name1&a1&Hname1&_&Ha1&_). simpl in *.
      assert (nameToAppender core1 !! name1 = Some (Some a1)) as Hsome.
      { apply Hiff. right. by exists b. }
      congruence.
  - intros tb [Hin|Hin]%elem_of_app.
    + apply list_elem_of_fmap in Hin as (b&->&Hb). by apply Hall1.
    + destruct (Hall tb Hin) as (name&a&?&?&?&Hnone).
      exists name, a. split_and!; try done.
      destruct (nameToAppender core !! name) as [p|] eqn:Hp; [|done].
      assert (nameToAppender core1 !! name = Some p) as Hsome; [|congruence].
      apply Hiff. by left.
Qed.

Lemma registerConfigs_Ret core ty blocks :
  NoDup (ConfigName <$> blocks) →
  (∀ b, b ∈ blocks → accepted core (ty, b)) →
  ∃ core', registerConfigs core ty blocks = Ret core'.
Proof.
  revert core. induction blocks as [|b blocks IH]; intros core Hnd Hall.
  { by eexists. }
  rewrite fmap_cons in Hnd. apply NoDup_cons in Hnd as [Hb Hnd].
  destruct (Hall b) as (name&a&Hname&Hne&Ha&Hfree); [left|]. simpl in *.
  rewrite Ha, Hname. monad_simpl. unfold putAppender.
  rewrite decide_False, Hfree by done. apply IH; [done|].
  intros b' Hin. destruct (Hall b') as (name'&a'&Hname'&?&?&?); [by right|].
  exists name', a'. simpl in *. split_and!; try done.
  rewrite lookup_insert_ne; [done|]. intros ->. apply Hb.
  apply list_elem_of_fmap. exists b'. split; [congruence|done].
Qed.

Lemma registerGroups_Ret core groups :
  NoDup ((λ tb, ConfigName tb.2) <$> blocksOf groups) →
  (∀ tb, tb ∈ blocksOf groups → accepted core tb) →
  ∃ core', registerGroups core groups = Ret core'.
Proof.
  revert core. induction groups as [|[ty blocks] groups IH];
    intros core Hnd Hall.
  { by eexists. }
  change (blocksOf ((ty, blocks) :: groups))
    with ((pair ty <$> blocks) ++ blocksOf groups) in Hnd, Hall.
  rewrite fmap_app in Hnd. apply NoDup_app in Hnd as (Hnd1&Hdisj&Hnd).
  rewrite <-list_fmap_compose in Hnd1.
  destruct (registerConfigs_Ret core ty blocks) as [core1 H1]; [done| |].
  { intros b Hb. apply Hall, elem_of_app. left.
    apply list_elem_of_fmap. by exists b. }
  simpl. rewrite H1. monad_simpl. apply IH; [done|].
  intros tb Hin. destruct (Hall tb) as (name&a&Hname&?&?&Hfree).
  { apply elem_of_app. by right. }
  exists name, a. split_and!; try done.
  apply registerConfigs_spec in H1 as (Hiff&_).
  destruct (nameToAppender core1 !! name) as [p|] eqn:Hp; [|done].
  apply Hiff in Hp as [Hp|(b&Hb&Hnb&_)]; [congruence|].
  destruct (Hdisj (ConfigName tb.2)).
  - apply list_elem_of_fmap. exists (ty, b). split; [simpl; congruence|].
    apply list_elem_of_fmap. by exists b.
  - apply list_elem_of_fmap. by exists tb.
Qed.

(** The registration of the appenders does not depend on the walk. *)
Lemma registered_any_seed config seed c0 seed' :
  registered config seed = Ret c0 →
  ∃ c0', registered config seed' = Ret c0'
         ∧ nameToAppender c0' = nameToAppender c0.
Proof.
  unfold registered. intros Hreg.
  assert (Hperm : blocksOf (map_range seed' _ (cfg.Appenders config))
                  ≡ₚ blocksOf (map_range seed _ (cfg.Appenders config))).
  { unfold blocksOf. by rewrite !map_range_perm. }
  apply registerGroups_good in Hreg as Hgood. destruct Hgood as [Hnd Hall].
  destruct (registerGroups_Ret emptyCore
              (map_range seed' _ (cfg.Appenders config))) as [c0' Hreg'].
  { by rewrite Hperm. }
  { intros tb Hin. apply Hall. by rewrite <-Hperm. }
  exists c0'. split; [done|]. apply map_eq. intros k.
  apply registerGroups_spec in Hreg as (Hiff&_).
  apply registerGroups_spec in Hreg' as (Hiff'&_).
  apply option_eq. intros p. rewrite Hiff, Hiff'.
  by setoid_rewrite map_range_perm.
Qed.

(** X12.  Whether [New] returns a registry, and which, does not depend on
    the order in which the maps are walked nor on the allocator.  If [New]
    returns a registry in one world, it returns one in every world, with
    the same appenders, the same root appenders, the same root level name
    and severity, the same root references up to their order, and handles
    for the same names, which bear the same names, are gated by levels of
    the same severity and write to the same appenders. *)
Theorem New_any_world raw w c w1 w' :
  New raw w = Ret (c, w1) →
  ∃ c' w1',
    New raw w' = Ret (c', w1')
    ∧ nameToAppender c' = nameToAppender c
    ∧ rootAppenders c' = rootAppenders c
    ∧ rootLevelName c' = rootLevelName c
    ∧ (∀ L L', rootLevel c = Some L → rootLevel c' = Some L' →
               level_value L' = level_value L)
    ∧ (∀ r, r ∈ rootAppenderRefs c' ↔ r ∈ rootAppenderRefs c)
    ∧ (∀ k, is_Some (nameToLogger c' !! k) ↔ is_Some (nameToLogger c !! k))
    ∧ (∀ k zl zl', nameToLogger c !! k = Some zl →
         nameToLogger c' !! k = Some zl' →
         logger_name zl' = logger_name zl
         ∧ appendersOf zl' ≡ₚ appendersOf zl
         ∧ ∃ L L', gatesOf zl = replicate (length (appendersOf zl)) (Some L)
             ∧ gatesOf zl' = replicate (length (appendersOf zl')) (Some L')
             ∧ level_value L' = level_value L).
Proof.
  intros HNew.
  apply New_Ret_inv in HNew as (config&c1&wa&Hraw&Hs&Hb).
  apply startup_Ret_inv in Hs as Hinv.
  destruct Hinv
    as ((Hok&(R&HR&HRp)&Hroot&Hall)&(c0&Hreg&Happ)&Hempty&_&Hname&Hset&Hreq&_).
  (* the start-up in the other world *)
  destruct (registered_any_seed config _ c0 (iter_seed w') Hreg)
    as (c0'&Hreg'&Happ0).
  assert (Hs' : ∃ c1' wa', startup config w' = Ret (c1', wa')).
  { rewrite startup_unfold, Hreg'. cbn zeta.
    destruct (UnmarshalText
                (cfg.RootLevel (cfg.root (cfg.loggers config))))
      as [lv|] eqn:Hlv.
    2:{ rewrite Hname in HRp. congruence. }
    destruct (newLogger_resolve c0'
                (cfg.RootAppenderRefs (cfg.root (cfg.loggers config)))
                (S (iter_seed w')))
      as [(am&->&_)|(r&Hr&Hnone&_)]; [by eexists _, _|].
    destruct (Hreq r Hr) as [p Hp]. rewrite Happ, <-Happ0 in Hp. congruence. }
  destruct Hs' as (c1'&wa'&Hs').
  apply startup_Ret_inv in Hs' as Hinv'.
  destruct Hinv'
    as ((Hok'&(R'&HR'&HRp')&Hroot'&Hall')&(c0''&Hreg''&Happ')
        &Hempty'&_&Hname'&Hset'&_).
  assert (c0'' = c0') as -> by congruence.
  assert (Happ1 : nameToAppender c1' = nameToAppender c1) by congruence.
  assert (Hsets : MakeStringSet (rootAppenderRefs c1')
                  = MakeStringSet (rootAppenderRefs c1)) by congruence.
  assert (Hrefs : ∀ r, r ∈ rootAppenderRefs c1' ↔ r ∈ rootAppenderRefs c1).
  { intros r. by rewrite <-!MakeStringSet_lookup, Hsets. }
  assert (Hres : ∀ set, resolved c1' set = resolved c1 set).
  { intros set. unfold resolved. by rewrite Happ1. }
  assert (Hlvl : ∀ lc, effectiveLevelName c1' lc = effectiveLevelName c1 lc).
  { intros lc. unfold effectiveLevelName. by rewrite Hname', Hname. }
  assert (Heffset : ∀ lc, MakeStringSet (effectiveRefs c1' lc)
                          = MakeStringSet (effectiveRefs c1 lc)).
  { intros lc. unfold effectiveRefs. by case_decide. }
  assert (Heff : ∀ lc r, r ∈ effectiveRefs c1' lc ↔ r ∈ effectiveRefs c1 lc).
  { intros lc r. by rewrite <-!MakeStringSet_lookup, Heffset. }
  (* the declared loggers in the other world *)
  apply buildLoggers_Ret_inv in Hb as Hinv.
  destruct Hinv as (Hc&Hnd&_&_&Hdecl&Horigin&_).
  destruct (buildLoggers_Ret c1' (cfg.logger (cfg.loggers config)) wa')
    as (c'&w1'&Hb'); try done.
  { intros lc _. by rewrite Hempty', lookup_empty. }
  { intros lc Hin. destruct (Hdecl lc Hin) as (zl&wx&wy&_&Hnew&_).
    apply newLogger_Ret_buildable in Hnew as (Hlv&Hne&Hregd).
    split_and!.
    - by rewrite Hlvl.
    - intros Hnil. apply Hne. apply MakeStringSet_empty_inv.
      by rewrite <-Heffset, Hnil.
    - intros r Hr. rewrite Happ1. by apply Hregd, Heff. }
  apply buildLoggers_Ret_inv in Hb' as Hinv'.
  destruct Hinv' as (Hc'&_&_&_&Hdecl'&Horigin'&_).
  exists c', w1'. split.
  { by rewrite (New_unfold _ _ _ Hraw), Hs'. }
  rewrite Hc, Hc'. simpl. split_and!; try done.
  - by rewrite Hroot', Hroot, Hsets, Hres.
  - congruence.
  - intros L L' HL HL'. congruence.
  - intros k. split; intros [zl Hzl].
    + destruct (Horigin' k zl Hzl) as [Hold|(lc&_&_&Hin&->&_)].
      { by rewrite Hempty', lookup_empty in Hold. }
      destruct (Hdecl lc Hin) as (zl0&_&_&Hzl0&_). by eexists.
    + destruct (Horigin k zl Hzl) as [Hold|(lc&_&_&Hin&->&_)].
      { by rewrite Hempty, lookup_empty in Hold. }
      destruct (Hdecl' lc Hin) as (zl0&_&_&Hzl0&_). by eexists.
  - intros k zl zl' Hzl Hzl'.
    destruct (Horigin k zl Hzl) as [Hold|(lc&wx&wy&Hin&->&Hnew&_)].
    { by rewrite Hempty, lookup_empty in Hold. }
    destruct (Horigin' _ zl' Hzl') as [Hold|(lc'&wx'&wy'&Hin'&Heq&Hnew'&_)].
    { by rewrite Hempty', lookup_empty in Hold. }
    assert (lc' = lc) as ->.
    { apply (NoDup_fmap_1 cfg.Name) in Hnd as Hnd'.
      apply list_elem_of_lookup in Hin as [i Hi].
      apply list_elem_of_lookup in Hin' as [j Hj].
      assert (i = j) as ->; [|congruence].
      eapply NoDup_lookup; [exact Hnd| |];
        rewrite list_lookup_fmap; [by rewrite Hi|by rewrite Hj, Heq]. }
    apply newLogger_Ret_obs in Hnew as (lv&Hlv&Hn&_&Happs&_&Hg&_).
    apply newLogger_Ret_obs in Hnew' as (lv'&Hlv'&Hn'&_&Happs'&_&Hg'&_).
    split_and!.
    + congruence.
    + by rewrite Happs, Happs', Heffset, Hres.
    + eexists _, _. split_and!; [done..|]. simpl.
      rewrite Hlvl in Hlv'. congruence.
Qed.
End coverage.

(** ** The further properties at the configurations of the examples *)

Lemma putAppender_getAppender_witness :
  getAppender (putAppender startedA.1 "C" (Some (mkAppender 3 3))).1 "C"
  = Ret (Some (mkAppender 3 3)).
Proof.
  destruct (putAppender_getAppender startedA.1 "C" (Some (mkAppender 3 3))
              (putAppender startedA.1 "C" (Some (mkAppender 3 3))).1 None)
    as [Hput _].
  - vm_compute. reflexivity.
  - exact (proj1 (proj2 (Hput eq_refl))).
Defined.

Lemma declared_levels_distinct_witness :
  New (Externals0 := sample) (Some (configOf rootA [svc; db])) world0
    = Ret builtA
  ∧ ∃ zl zl' L L',
      nameToLogger builtA.1 !! "svc" = Some zl
      ∧ nameToLogger builtA.1 !! "db" = Some zl'
      ∧ Some L ∈ gatesOf zl ∧ Some L' ∈ gatesOf zl'
      ∧ level_addr L ≠ level_addr L' ∧ L ≠ L'.
Proof.
  assert (HNew : New (Externals0 := sample)
                   (Some (configOf rootA [svc; db])) world0
                 = Ret (builtA.1, builtA.2))
    by (vm_compute; reflexivity).
  split; [vm_compute; reflexivity|].
  pose proof (proj2 (declared_levels_distinct (Externals0 := sample)
                       (Some (configOf rootA [svc; db])) world0
                       builtA.1 builtA.2 HNew)) as Hdiff.
  let t := eval vm_compute in (nameToLogger builtA.1 !! "svc") in
  let t' := eval vm_compute in (nameToLogger builtA.1 !! "db") in
  match t with
  | Some ?z =>
      match t' with
      | Some ?z' =>
          assert (Hsvc : nameToLogger builtA.1 !! "svc" = Some z)
            by (vm_compute; reflexivity);
          assert (Hdb : nameToLogger builtA.1 !! "db" = Some z')
            by (vm_compute; reflexivity);
          assert (Hin : Some (mkAtomicLevel 1 DebugLevel) ∈ gatesOf z)
            by (vm_compute; constructor);
          assert (Hin' : Some (mkAtomicLevel 3 InfoLevel) ∈ gatesOf z')
            by (vm_compute; constructor);
          exists z, z', (mkAtomicLevel 1 DebugLevel),
                 (mkAtomicLevel 3 InfoLevel)
      end
  end.
  split; [exact Hsvc|]. split; [exact Hdb|].
  split; [exact Hin|]. split; [exact Hin'|].
  exact (Hdiff "svc" "db" _ _ _ _ Hsvc Hdb ltac:(discriminate) Hin Hin').
Defined.

Lemma newLogger_outcome_witness :
  ∃ zl w', @newLogger _ _ sample startedA.1 svc startedA.2 = Ret (zl, w').
Proof.
  destruct (newLogger_outcome (Externals0 := sample) startedA.1 svc
              startedA.2) as (_&_&_&[_ Hret]&_).
  - change (map_Forall (λ _ p, is_Some p) (nameToAppender startedA.1)).
    apply (bool_decide_unpack _). vm_compute. exact I.
  - apply Hret. split; [vm_compute; eexists; reflexivity|].
    split; [discriminate|]. intros r Hr.
    change (r ∈ ["B"; "A"; "B"]) in Hr.
    rewrite !elem_of_cons, elem_of_nil in Hr.
    destruct Hr as [->|[->|[->|[]]]]; vm_compute; eexists; reflexivity.
Defined.

Lemma nil_appender_panics_witness :
  @newLogger _ _ sample coreNil idle world0 = Crash
  ∧ @GetLogger _ _ sample coreNil "other" world0 = Crash.
Proof.
  destruct (nil_appender_panics (Externals0 := sample) coreNil idle "other"
              "A" world0) as [Hnew Hget].
  split.
  - apply Hnew.
    + vm_compute. eexists. reflexivity.
    + intros r Hr. change (r ∈ ["A"]) in Hr.
      apply list_elem_of_singleton in Hr. subst r. vm_compute. eexists.
      reflexivity.
    + apply list_elem_of_singleton. reflexivity.
    + vm_compute. reflexivity.
  - apply Hget; vm_compute; reflexivity.
Defined.


Lemma New_registry_witness :
  size (nameToAppender builtA.1)
  = length (allBlocks (configOf rootA [svc; db]))
  ∧ nameToAppender builtA.1 !! "" = None.
Proof.
  destruct (New_registry (Externals0 := sample)
              (Some (configOf rootA [svc; db])) (configOf rootA [svc; db])
              world0 builtA.1 builtA.2) as (_&Hsize&Hempty&_).
  - reflexivity.
  - vm_compute. reflexivity.
  - split; [exact Hsize|exact Hempty].
Defined.

Lemma New_root_witness :
  NoDup (rootAppenderRefs builtA.1)
  ∧ size (rootAppenders builtA.1) = length (rootAppenderRefs builtA.1).
Proof.
  destruct (New_root (Externals0 := sample)
              (Some (configOf rootA [svc; db])) (configOf rootA [svc; db])
              world0 builtA.1 builtA.2) as (_&_&Hnd&_&_&_&Hsize).
  - reflexivity.
  - vm_compute. reflexivity.
  - split; [exact Hnd|exact Hsize].
Defined.

Lemma New_declared_witness :
  is_Some (nameToLogger builtA.1 !! "svc")
  ∧ is_Some (nameToLogger builtA.1 !! "db").
Proof.
  destruct (New_declared (Externals0 := sample)
              (Some (configOf rootA [svc; db])) (configOf rootA [svc; db])
              world0 builtA.1 builtA.2) as (_&Hdom&_).
  - reflexivity.
  - vm_compute. reflexivity.
  - split; apply Hdom; simpl; rewrite !elem_of_cons; tauto.
Defined.

Lemma New_logger_errors_witness :
  @New _ _ sample (Some (configOf rootA [svc; audit])) world0
  = Fail (ErrNotFound "C")
  ∧ @ConfigName _ _ sample (mkBlock "B" 2) ≠ inr "C".
Proof.
  assert (HNew : @New _ _ sample (Some (configOf rootA [svc; audit])) world0
                 = Fail (ErrNotFound "C")).
  { vm_compute. reflexivity. }
  destruct (New_logger_errors (Externals0 := sample)
              (Some (configOf rootA [svc; audit]))
              (configOf rootA [svc; audit]) world0 (ErrNotFound "C")
              eq_refl HNew) as (_&Hnf&_).
  destruct (Hnf "C" eq_refl) as [_ Hno].
  split; [exact HNew|].
  apply (Hno "console" [mkBlock "A" 1; mkBlock "B" 2]).
  - vm_compute. reflexivity.
  - apply elem_of_cons. right. apply elem_of_cons. left. reflexivity.
Defined.

Lemma New_appender_errors_witness :
  2 ≤ length (filter (λ tb : string * Block, inr (block_name tb.2)
                                             = (inr "A" : string + string))
                (allBlocks configTwice)).
Proof.
  destruct (New_appender_errors (Externals0 := sample) (Some configTwice)
              configTwice world0 eq_refl) as [_ Herr].
  destruct (Herr (ErrDuplicateName "A")) as (_&_&Hdup&_).
  - vm_compute. reflexivity.
  - exact (Hdup "A" eq_refl).
Defined.

Lemma handles_distinct_witness :
  ∃ zl zl',
    nameToLogger (sys_core raced) !! "svc" = Some zl
    ∧ nameToLogger (sys_core raced) !! "other" = Some zl'
    ∧ logger_addr zl ≠ logger_addr zl'.
Proof.
  assert (Hrun : rtc (@step _ _ sample)
                   (mkSystem builtA.1 builtA.2 [] []) raced).
  { apply (exec_rtc race). vm_compute. reflexivity. }
  destruct (handles_distinct (Externals0 := sample)
              (Some (configOf rootA [svc; db])) world0 builtA.1 builtA.2
              builtA.2 raced) as [Hmap _].
  - vm_compute. reflexivity.
  - reflexivity.
  - exact Hrun.
  - eexists _, _. split; [vm_compute; reflexivity|].
    split; [vm_compute; reflexivity|].
    apply (Hmap "svc" "other"); [vm_compute; reflexivity..|discriminate].
Defined.

Lemma New_any_world_witness :
  ∃ c' w1',
    @New _ _ sample (Some (configOf rootA [svc; db])) (mkWorld 10 1)
    = Ret (c', w1')
    ∧ nameToAppender c' = nameToAppender builtA.1.
Proof.
  destruct (New_any_world (Externals0 := sample)
              (Some (configOf rootA [svc; db])) world0 builtA.1 builtA.2
              (mkWorld 10 1)) as (c'&w1'&HNew&Happ&_).
  - vm_compute. reflexivity.
  - exists c', w1'. split; [exact HNew|exact Happ].
Defined.
